(** * Verification of the chat-analyser retrieval pipeline

    Shallow embedding of [src/chatgpt_test.py] (the [RAGSystem] class:
    informativeness filter, retriever, prompt builder and the [query]
    pipeline) and of [WhatsAppChatIndexer.parse_message] and
    [WhatsAppChatIndexer.index_chat] from [src/weviate_trial.py].

    Python [str] values are modelled as [list ascii]: the development
    covers ASCII text (module [Unicode] reads [is_informative_content]
    on code points, for ASCII and the Greek letters, and agrees with the
    ASCII reading on ASCII strings).  [str.lower], [str.split], [str.strip] and the
    regular-expression class [\s] are given their ASCII behaviour
    ([\s], [split] and [strip] share CPython's whitespace set, which on
    ASCII is 9..13 and 28..32).  Distances are rationals: a NaN distance
    never passes the [<=] threshold test, so every distance that reaches
    the sort is an ordinary number. *)

From Stdlib Require Import Ascii String List Bool Arith Lia ZArith QArith.
From Stdlib Require Import Sorting.Sorted Sorting.Permutation.
Import ListNotations.

Open Scope nat_scope.
Open Scope list_scope.

(** ** Python strings *)

Abbreviation str := (list ascii).

(** A string literal as a Python string. *)
Definition S_ (s : string) : str := list_ascii_of_string s.

Definition chr (n : nat) : ascii := ascii_of_nat n.

Definition is_space (c : ascii) : bool :=
  let n := nat_of_ascii c in
  ((9 <=? n) && (n <=? 13)) || ((28 <=? n) && (n <=? 32)).

Definition is_digit (c : ascii) : bool :=
  let n := nat_of_ascii c in (48 <=? n) && (n <=? 57).

(** [str.lower] on one character. *)
Definition lower_char (c : ascii) : ascii :=
  let n := nat_of_ascii c in
  if (65 <=? n) && (n <=? 90) then ascii_of_nat (n + 32) else c.

Definition lower (s : str) : str := map lower_char s.

(** [s.startswith(p)] *)
Fixpoint startswith (s p : str) {struct p} : bool :=
  match p with
  | [] => true
  | c :: p' => match s with
               | [] => false
               | d :: s' => Ascii.eqb c d && startswith s' p'
               end
  end.

(** [sub in s] for strings. *)
Fixpoint contains (s sub : str) : bool :=
  startswith s sub ||
  match s with
  | [] => false
  | _ :: s' => contains s' sub
  end.

(** [c in s] for a one-character string. *)
Definition mem_char (c : ascii) (s : str) : bool := existsb (Ascii.eqb c) s.

Fixpoint drop_while (p : ascii -> bool) (s : str) : str :=
  match s with
  | [] => []
  | c :: s' => if p c then drop_while p s' else s
  end.

(** [s.rstrip(chars)] for a one-character [chars]: drops every trailing
    copy of the character. *)
Definition rstrip_char (c : ascii) (s : str) : str :=
  rev (drop_while (Ascii.eqb c) (rev s)).

(** [s.strip()] *)
Definition strip (s : str) : str :=
  rev (drop_while is_space (rev (drop_while is_space s))).

(** [s.split()]: the maximal runs of non-whitespace characters.  [cur]
    is the token being read, reversed. *)
Fixpoint split_aux (cur : str) (s : str) : list str :=
  match s with
  | [] => match cur with [] => [] | _ => [rev cur] end
  | c :: s' =>
      if is_space c then
        match cur with
        | [] => split_aux [] s'
        | _ => rev cur :: split_aux [] s'
        end
      else split_aux (c :: cur) s'
  end.

Definition split (s : str) : list str := split_aux [] s.

(** [s.replace(old, "")]: removes the non-overlapping occurrences of
    [old], scanning left to right.  [skip] counts the characters of a
    match still to be dropped.  With an empty [old] CPython inserts the
    empty replacement between characters, which leaves [s] unchanged. *)
Fixpoint remove_occ (old : str) (skip : nat) (s : str) : str :=
  match s with
  | [] => []
  | c :: s' =>
      match skip with
      | S k => remove_occ old k s'
      | O => if startswith s old then remove_occ old (pred (length old)) s'
             else c :: remove_occ old 0 s'
      end
  end.

Definition replace_empty (s old : str) : str :=
  match old with
  | [] => s
  | _ => remove_occ old 0 s
  end.

(** ** [RAGSystem.is_informative_content] *)

Definition reference_phrases : list str :=
  [S_ "like"; S_ "similar to"; S_ "same as"].

Definition is_informative_content (text query : str) : bool :=
  let text_lower := lower text in
  let query_lower := rstrip_char "?"%char (lower query) in
  let cleaned_text := strip (replace_empty text_lower query_lower) in
  if length (split cleaned_text) <? 5 then false
  else if startswith text_lower query_lower && mem_char "?"%char text then false
  else if existsb (fun phrase => contains cleaned_text phrase &&
                                 (length (split cleaned_text) <? 10))
                  reference_phrases then false
  else true.

(** The residual of rule 2 of the filter: the lower-cased text with the
    normalised query removed, stripped. *)
Definition residual (text query : str) : str :=
  strip (replace_empty (lower text) (rstrip_char "?"%char (lower query))).

(** The filter as §4.3 of the spec words it: rules applied in order,
    the first rule that decides gives the verdict.  [norm] is the query
    normalisation of rule 1, applied to the lower-cased query. *)
Definition rule := str -> str -> option bool.

Fixpoint first_verdict (rules : list rule) (text query : str) : bool :=
  match rules with
  | [] => true
  | r :: rs => match r text query with
               | Some b => b
               | None => first_verdict rs text query
               end
  end.

Definition spec_residual (norm : str -> str) (text query : str) : str :=
  strip (replace_empty (lower text) (norm (lower query))).

Definition spec_rules (norm : str -> str) : list rule :=
  [ (* rule 3 *)
    (fun t q => if length (split (spec_residual norm t q)) <? 5
                then Some false else None);
    (* rule 4 *)
    (fun t q => if startswith (lower t) (norm (lower q)) && mem_char "?"%char t
                then Some false else None);
    (* rule 5 *)
    (fun t q => let r := spec_residual norm t q in
                if existsb (contains r) reference_phrases &&
                   (length (split r) <? 10)
                then Some false else None);
    (* rule 6 *)
    (fun _ _ => Some true) ].

Definition is_informative_rules (norm : str -> str) (text query : str) : bool :=
  first_verdict (spec_rules norm) text query.

(** Rule 1 read as "strip a single trailing [?]". *)
Definition strip_one_qmark (s : str) : str :=
  match rev s with
  | c :: r => if Ascii.eqb c "?"%char then rev r else s
  | [] => s
  end.

(** ** Retrieved objects and failures *)

(** A Weaviate result object: its returned properties and the distance
    reported in its metadata. *)
Record Doc := mkDoc { properties : list (str * str); distance : Q }.

Fixpoint lookup (k : str) (l : list (str * str)) : option str :=
  match l with
  | [] => None
  | (k', v) :: l' => if list_eq_dec ascii_dec k k' then Some v else lookup k l'
  end.

(** Exceptions raised along the pipeline: a missing property
    ([doc.properties[field]]), and failures of the vector store and of
    the completion service. *)
Inductive exn :=
| KeyError (k : str)
| StoreFailure
| CompletionFailure.

Inductive result (A : Type) :=
| Ok (a : A)
| Err (e : exn).
Arguments Ok {A} a.
Arguments Err {A} e.

(** ** Retrieval: threshold and informativeness filter, stable sort,
    slicing *)

(** The list comprehension of [retrieve_relevant_context]: the distance
    test comes first and short-circuits the property lookup. *)
Fixpoint filter_results (field query : str) (thr : Q) (objs : list Doc)
  : result (list Doc) :=
  match objs with
  | [] => Ok []
  | doc :: rest =>
      if Qle_bool (distance doc) thr then
        match lookup field (properties doc) with
        | None => Err (KeyError field)
        | Some text =>
            if is_informative_content text query then
              match filter_results field query thr rest with
              | Ok l => Ok (doc :: l)
              | Err e => Err e
              end
            else filter_results field query thr rest
        end
      else filter_results field query thr rest
  end.

(** [sorted(l, key=lambda x: x.metadata.distance)]: Python's sort is
    stable, and a stable sort has one possible output; insertion sort
    places each element before the later elements with a larger or equal
    key. *)
Fixpoint insert_by_distance (x : Doc) (l : list Doc) : list Doc :=
  match l with
  | [] => [x]
  | y :: r => if Qle_bool (distance x) (distance y) then x :: l
              else y :: insert_by_distance x r
  end.

Fixpoint sort_by_distance (l : list Doc) : list Doc :=
  match l with
  | [] => []
  | x :: r => insert_by_distance x (sort_by_distance r)
  end.

(** [l[:limit]] for an integer [limit]: a negative stop counts from the
    end of the list. *)
Definition slice_to (limit : Z) {A} (l : list A) : list A :=
  firstn (Z.to_nat (if (0 <=? limit)%Z then limit
                    else (Z.of_nat (length l) + limit)%Z)) l.

(** ** External services and the pipeline state *)

(** The capabilities [RAGSystem] composes: the sentence embedder
    ([self.model.encode]), Weaviate's [near_vector] query on the
    collection, and the chat-completion call (returning
    [response.choices[0].message.content]).  The store and the
    completion service may fail. *)
Record Services := mkServices {
  encode : str -> list Q;
  near_vector : list Q -> nat -> result (list Doc);
  complete : str -> result str
}.

Record RAGSystem := mkRAGSystem {
  services : Services;
  embedding_field : str
}.

(** Observable effects of a query. *)
Inductive event :=
| EvNearVector (vec : list Q) (limit : nat)
| EvPrint (s : str)
| EvComplete (prompt : str)
| EvClose.

(** [client_open] is the Weaviate connection opened by
    [weaviate.connect_to_local()] in [__init__]. *)
Record world := mkWorld { client_open : bool; events : list event }.

Definition emit (e : event) (w : world) : world :=
  mkWorld (client_open w) (events w ++ [e]).

(** State and exception monad. *)
Definition M (A : Type) := world -> result A * world.

Definition ret {A} (a : A) : M A := fun w => (Ok a, w).

Definition bind {A B} (m : M A) (f : A -> M B) : M B :=
  fun w => match m w with
           | (Ok a, w') => f a w'
           | (Err e, w') => (Err e, w')
           end.

Notation "x <- m ;; k" := (bind m (fun x => k))
  (at level 61, m at next level, right associativity).

Definition lift {A} (r : result A) : M A := fun w => (r, w).

(** [try: body finally: fin] *)
Definition try_finally {A} (body : M A) (fin : M unit) : M A :=
  fun w => let (r, w1) := body w in
           let (r2, w2) := fin w1 in
           match r2 with
           | Ok _ => (r, w2)
           | Err e => (Err e, w2)
           end.

Definition close_world (w : world) : world :=
  mkWorld false (events w ++ [EvClose]).

(** [self.client.close()] *)
Definition client_close : M unit := fun w => (Ok tt, close_world w).

Definition print (s : str) : M unit := fun w => (Ok tt, emit (EvPrint s) w).

Definition call_near_vector (self : RAGSystem) (vec : list Q) (limit : nat)
  : M (list Doc) :=
  fun w => (near_vector (services self) vec limit, emit (EvNearVector vec limit) w).

(** ** [RAGSystem.retrieve_relevant_context] *)

Definition retrieve_relevant_context (self : RAGSystem) (query : str)
  (limit : Z) (distance_threshold : Q) : M (list Doc) :=
  let query_embedding := encode (services self) query in
  let initial_limit := 100%nat in
  response <- call_near_vector self query_embedding initial_limit ;;
  filtered_results <- lift (filter_results (embedding_field self) query
                              distance_threshold response) ;;
  ret (slice_to limit (sort_by_distance filtered_results)).

(** ** [RAGSystem.generate_prompt] *)

Fixpoint join (sep : str) (l : list str) : str :=
  match l with
  | [] => []
  | [x] => x
  | x :: r => x ++ sep ++ join sep r
  end.

(** [[doc.properties[field] for doc in docs]] *)
Fixpoint contents (field : str) (docs : list Doc) : result (list str) :=
  match docs with
  | [] => Ok []
  | doc :: rest =>
      match lookup field (properties doc) with
      | None => Err (KeyError field)
      | Some c => match contents field rest with
                  | Ok l => Ok (c :: l)
                  | Err e => Err e
                  end
      end
  end.

Definition nl : str := [chr 10].

Definition prompt_head : str :=
  S_ "Please answer the question based on the following context:" ++ nl ++ nl
  ++ S_ "Context:" ++ nl.

Definition prompt_mid : str := nl ++ nl ++ S_ "Question: ".

Definition prompt_tail : str :=
  nl ++ nl ++ S_ "Please provide a detailed answer using only the information from the given context. The provided context is the Whatsapp chats between Shashank Hegde and Shashin Bhaskar. If the context doesn't contain enough information to answer the question, please state that explicitly.".

Definition generate_prompt (self : RAGSystem) (query : str) (context : list Doc)
  : result str :=
  let sorted_contexts := sort_by_distance context in
  match contents (embedding_field self) sorted_contexts with
  | Err e => Err e
  | Ok cs =>
      let context_str := join (nl ++ nl) cs in
      Ok (prompt_head ++ context_str ++ prompt_mid ++ query ++ prompt_tail)
  end.

(** ** [RAGSystem.get_completion] and [RAGSystem.query] *)

Definition get_completion (self : RAGSystem) (prompt : str) : M str :=
  fun w => (complete (services self) prompt, emit (EvComplete prompt) w).

Definition no_info_message : str :=
  S_ "I couldn't find any relevant information to answer your question.".

(** The body of the [try] block of [query], with the defaults
    [limit = 7] and [distance_threshold = 0.75]. *)
Definition query_body (self : RAGSystem) (user_query : str) : M str :=
  relevant_docs <- retrieve_relevant_context self user_query 7 (3 # 4) ;;
  match relevant_docs with
  | [] => ret no_info_message
  | _ :: _ =>
      prompt <- lift (generate_prompt self user_query relevant_docs) ;;
      _ <- print (S_ "Prompt " ++ prompt) ;;
      get_completion self prompt
  end.

Definition query (self : RAGSystem) (user_query : str) : M str :=
  try_finally (query_body self user_query) client_close.

(** ** [WhatsAppChatIndexer.parse_message] *)

Notation "'let*' p := m 'in' k" :=
  (match m with Some p => k | None => None end)
  (at level 200, p pattern, m at level 100, right associativity).

(** One character of a class. *)
Definition one_char (p : ascii -> bool) (s : str) : option str :=
  match s with
  | c :: r => if p c then Some r else None
  | [] => None
  end.

Definition lit (c : ascii) : str -> option str := one_char (Ascii.eqb c).

(** [\d{1,2}], greedy.  In the pattern it is always followed by a
    non-digit literal, so giving back the second digit never leads to a
    match: the greedy choice is the only one. *)
Definition digits12 (s : str) : option (str * str) :=
  match s with
  | a :: r =>
      if is_digit a then
        match r with
        | b :: r' => if is_digit b then Some ([a; b], r') else Some ([a], r)
        | [] => Some ([a], [])
        end
      else None
  | [] => None
  end.

(** [\d{2}] *)
Definition digits2 (s : str) : option (str * str) :=
  match s with
  | a :: b :: r => if is_digit a && is_digit b then Some ([a; b], r) else None
  | _ => None
  end.

(** The longest prefix of characters satisfying [p]. *)
Fixpoint span (p : ascii -> bool) (s : str) : str * str :=
  match s with
  | [] => ([], [])
  | c :: r => if p c then let (a, b) := span p r in (c :: a, b) else ([], s)
  end.

(** [[...]+] for a class [p], greedy.  Each use in the pattern is
    followed by a character outside the class (or by the end of the
    match), so the longest run is the only one that can match. *)
Definition plus_class (p : ascii -> bool) (s : str) : option (str * str) :=
  match span p s with
  | ([], _) => None
  | (a, r) => Some (a, r)
  end.

Definition not_colon (c : ascii) : bool := negb (Ascii.eqb c ":"%char).
Definition not_newline (c : ascii) : bool := negb (Ascii.eqb c (chr 10)).

(** [re.match(r'(\d{1,2}/\d{1,2}/\d{2}),\s(\d{1,2}:\d{2})\s-\s([^:]+):\s(.+)', line)]
    and its four groups.  [.] does not match a newline. *)
Definition match_line (line : str) : option (str * str * str * str) :=
  let* (m, r) := digits12 line in
  let* r := lit "/" r in
  let* (d, r) := digits12 r in
  let* r := lit "/" r in
  let* (y, r) := digits2 r in
  let* r := lit "," r in
  let* r := one_char is_space r in
  let* (h, r) := digits12 r in
  let* r := lit ":" r in
  let* (mi, r) := digits2 r in
  let* r := one_char is_space r in
  let* r := lit "-" r in
  let* r := one_char is_space r in
  let* (sender, r) := plus_class not_colon r in
  let* r := lit ":" r in
  let* r := one_char is_space r in
  let* (content, _) := plus_class not_newline r in
  Some (m ++ "/"%char :: d ++ "/"%char :: y, h ++ ":"%char :: mi, sender, content).

(** [datetime.strptime(s, "%m/%d/%y %H:%M")].  CPython's [_strptime]
    compiles the format to
    [(?P<m>1[0-2]|0[1-9]|[1-9])/(?P<d>3[0-1]|[1-2]\d|0[1-9]|[1-9]| [1-9])/(?P<y>\d\d)\s+(?P<H>2[0-3]|[0-1]\d|\d):(?P<M>[0-5]\d|\d)],
    takes the first match in backtracking order, rejects unconverted
    trailing data, maps [%y] to 2000..2068 / 1969..1999 and lets the
    [datetime] constructor check the day against the month. *)
Record datetime := mkDatetime {
  dt_year : nat; dt_month : nat; dt_day : nat; dt_hour : nat; dt_minute : nat
}.

Definition in_range (lo hi : nat) (c : ascii) : bool :=
  let n := nat_of_ascii c in (lo <=? n) && (n <=? hi).

Definition dval (c : ascii) : nat := nat_of_ascii c - 48.

(** Alternatives of one regex group, in the order the matcher tries them. *)
Definition alt1 (p : ascii -> bool) (s : str) : list (nat * str) :=
  match s with
  | a :: r => if p a then [(dval a, r)] else []
  | [] => []
  end.

Definition alt2 (p q : ascii -> bool) (s : str) : list (nat * str) :=
  match s with
  | a :: b :: r => if p a && q b then [(10 * dval a + dval b, r)] else []
  | _ => []
  end.

Definition dig := in_range 48 57.

Definition alt_m (s : str) : list (nat * str) :=
  alt2 (in_range 49 49) (in_range 48 50) s ++ alt2 (in_range 48 48) (in_range 49 57) s
  ++ alt1 (in_range 49 57) s.

Definition alt_d (s : str) : list (nat * str) :=
  alt2 (in_range 51 51) (in_range 48 49) s ++ alt2 (in_range 49 50) dig s
  ++ alt2 (in_range 48 48) (in_range 49 57) s ++ alt1 (in_range 49 57) s
  ++ match s with
     | c :: r => if Ascii.eqb c " "%char then alt1 (in_range 49 57) r else []
     | [] => []
     end.

Definition alt_y (s : str) : list (nat * str) := alt2 dig dig s.

Definition alt_H (s : str) : list (nat * str) :=
  alt2 (in_range 50 50) (in_range 48 51) s ++ alt2 (in_range 48 49) dig s ++ alt1 dig s.

Definition alt_M (s : str) : list (nat * str) := alt2 (in_range 48 53) dig s ++ alt1 dig s.

Definition alt_lit (c : ascii) (s : str) : list str :=
  match s with
  | x :: r => if Ascii.eqb x c then [r] else []
  | [] => []
  end.

(** [\s+], greedy: the longest run first. *)
Definition alt_spaces (s : str) : list str :=
  map (fun k => skipn k s) (rev (seq 1 (length (fst (span is_space s))))).

Definition strptime_candidates (s : str) : list (nat * nat * nat * nat * nat * str) :=
  flat_map (fun '(mo, r) =>
  flat_map (fun r =>
  flat_map (fun '(dd, r) =>
  flat_map (fun r =>
  flat_map (fun '(yy, r) =>
  flat_map (fun r =>
  flat_map (fun '(hh, r) =>
  flat_map (fun r =>
  map (fun '(mi, r) => (mo, dd, yy, hh, mi, r))
    (alt_M r)) (alt_lit ":" r)) (alt_H r)) (alt_spaces r)) (alt_y r))
    (alt_lit "/" r)) (alt_d r)) (alt_lit "/" r)) (alt_m s).

Definition is_leap (y : nat) : bool :=
  (y mod 4 =? 0) && (negb (y mod 100 =? 0) || (y mod 400 =? 0)).

Definition days_in_month (y m : nat) : nat :=
  match m with
  | 2 => if is_leap y then 29 else 28
  | 4 | 6 | 9 | 11 => 30
  | _ => 31
  end.

Definition strptime (s : str) : option datetime :=
  match strptime_candidates s with
  | (mo, dd, yy, hh, mi, []) :: _ =>
      let year := if yy <=? 68 then 2000 + yy else 1900 + yy in
      if dd <=? days_in_month year mo then Some (mkDatetime year mo dd hh mi)
      else None
  | _ => None
  end.

Definition digit_char (n : nat) : ascii := ascii_of_nat (48 + n).

Definition pad2 (n : nat) : str := [digit_char (n / 10); digit_char (n mod 10)].

Definition pad4 (n : nat) : str :=
  [digit_char (n / 1000); digit_char (n / 100 mod 10);
   digit_char (n / 10 mod 10); digit_char (n mod 10)].

(** [datetime.isoformat()] with zero seconds and microseconds. *)
Definition isoformat (t : datetime) : str :=
  pad4 (dt_year t) ++ "-"%char :: pad2 (dt_month t) ++ "-"%char :: pad2 (dt_day t)
  ++ "T"%char :: pad2 (dt_hour t) ++ ":"%char :: pad2 (dt_minute t) ++ S_ ":00".

Record WhatsAppChatIndexer := mkIndexer { model_encode : str -> list Q }.

Record ParsedMessage := mkParsed {
  timestamp : str; sender : str; content : str; embedding : list Q
}.

(** The [try] block catches the [ValueError] of [strptime]; the embedder
    is a total function. *)
Definition parse_message (self : WhatsAppChatIndexer) (line : str)
  : option ParsedMessage :=
  match match_line line with
  | Some (date, time, sender, content) =>
      match strptime (date ++ " "%char :: time) with
      | Some ts =>
          Some (mkParsed (isoformat ts) (strip sender) (strip content)
                         (model_encode self content))
      | None => None
      end
  | None => None
  end.

(** The language of the pattern, read off the regular expression: the
    four groups and the characters around them. *)
Definition line_matches (line date time sender content : str) : Prop :=
  exists m d y h mi (w1 w2 w3 w4 : ascii) rest,
    forallb is_digit (m ++ d ++ y ++ h ++ mi) = true /\
    (length m = 1 \/ length m = 2)%nat /\ (length d = 1 \/ length d = 2)%nat /\
    length y = 2%nat /\ (length h = 1 \/ length h = 2)%nat /\ length mi = 2%nat /\
    is_space w1 && is_space w2 && is_space w3 && is_space w4 = true /\
    sender <> [] /\ forallb not_colon sender = true /\
    content <> [] /\ forallb not_newline content = true /\
    (rest = [] \/ exists r, rest = chr 10 :: r) /\
    date = m ++ "/"%char :: d ++ "/"%char :: y /\
    time = h ++ ":"%char :: mi /\
    line = date ++ ","%char :: w1 :: time ++ w2 :: "-"%char :: w3 :: sender
           ++ ":"%char :: w4 :: content ++ rest.

(** [a in b] for strings, as a proposition. *)
Definition infix (a b : str) : Prop := exists x y, b = x ++ a ++ y.

(** ** [WhatsAppChatIndexer.index_chat] *)

(** The file is given as the list of lines its iteration yields.  The
    progress and result messages printed by the loop are recorded as
    events carrying the numbers they print. *)
Definition encrypted_notice : str := S_ "Messages and calls are end-to-end encrypted".

Inductive index_event :=
| EvProcessed (total : nat)
| EvInsert (m : ParsedMessage)
| EvInsertedBatch (batch total : nat)
| EvInsertError
| EvInsertMany (objs : list ParsedMessage)
| EvFinalBatch (batch total : nat)
| EvFinalError.

Record IndexState := mkIndexState {
  objects_to_insert : list ParsedMessage;
  total_processed : nat;
  index_log : list index_event
}.

(** [parsed["content"]] evaluated with [parsed = None] raises a
    [TypeError]. *)
Inductive index_error := NoneSubscript.

(** One iteration of the [for line in file] loop; [insert] is
    [collection.data.insert], whose failures are caught and printed. *)
Definition index_line (self : WhatsAppChatIndexer)
  (insert : ParsedMessage -> result unit) (st : IndexState) (raw : str)
  : IndexState + index_error :=
  let line := strip raw in
  if match line with [] => true | _ => false end || contains line encrypted_notice
  then inl st
  else
    let parsed := parse_message self line in
    let st := match parsed with
              | Some p =>
                  let n := S (total_processed st) in
                  mkIndexState (objects_to_insert st ++ [p]) n
                    (index_log st ++ (if n mod 100 =? 0 then [EvProcessed n] else []))
              | None => st
              end in
    if 1 <=? length (objects_to_insert st) then
      match parsed with
      | None => inr NoneSubscript
      | Some p =>
          let outcome := match insert p with
                         | Ok _ => [EvInsertedBatch (length (objects_to_insert st))
                                                    (total_processed st)]
                         | Err _ => [EvInsertError]
                         end in
          inl (mkIndexState [] (total_processed st) (index_log st ++ EvInsert p :: outcome))
      end
    else inl st.

Fixpoint index_lines (self : WhatsAppChatIndexer) (insert : ParsedMessage -> result unit)
  (st : IndexState) (lines : list str) : IndexState + index_error :=
  match lines with
  | [] => inl st
  | raw :: rest =>
      match index_line self insert st raw with
      | inl st' => index_lines self insert st' rest
      | inr e => inr e
      end
  end.

(** The loop, then the final [insert_many] of the objects left over. *)
Definition index_chat (self : WhatsAppChatIndexer) (insert : ParsedMessage -> result unit)
  (insert_many : list ParsedMessage -> result unit) (lines : list str)
  : IndexState + index_error :=
  match index_lines self insert (mkIndexState [] 0 []) lines with
  | inr e => inr e
  | inl st =>
      match objects_to_insert st with
      | [] => inl st
      | objs =>
          inl (mkIndexState objs (total_processed st)
                 (index_log st ++ EvInsertMany objs ::
                    match insert_many objs with
                    | Ok _ => [EvFinalBatch (length objs) (total_processed st)]
                    | Err _ => [EvFinalError]
                    end))
      end
  end.

(** ** Auxiliary notions for the proofs and sample inputs *)

Definition dist_le (a b : Doc) : Prop := (distance a <= distance b)%Q.

(** A computation that leaves the connection as it is and only appends
    events to the log. *)
Definition appends {A} (m : M A) : Prop :=
  forall w, client_open (snd (m w)) = client_open w /\
            exists evs, events (snd (m w)) = events w ++ evs.

(** The run read by [span] and the character that stops it. *)
Definition stops (p : ascii -> bool) (r : str) : Prop :=
  r = [] \/ exists c r', r = c :: r' /\ p c = false.

Definition rain_doc (d : Q) : Doc :=
  mkDoc [(S_ "content", S_ "it rained heavily all night and flooded the street")] d.

Definition two_doc_system : RAGSystem :=
  mkRAGSystem (mkServices (fun _ => []) (fun _ _ => Ok [rain_doc 0; rain_doc (1 # 2)])
                          (fun _ => Ok []))
              (S_ "content").

Definition sample_line : str := S_ "3/5/24, 14:07 - Alice : hello there ".

(** The records of the lines [index_chat] keeps (non-blank after
    stripping, without the encryption notice) that parse, in file order. *)
Fixpoint kept_messages (self : WhatsAppChatIndexer) (lines : list str) : list ParsedMessage :=
  match lines with
  | [] => []
  | raw :: rest =>
      let line := strip raw in
      if match line with [] => true | _ => false end || contains line encrypted_notice
      then kept_messages self rest
      else match parse_message self line with
           | Some p => p :: kept_messages self rest
           | None => kept_messages self rest
           end
  end.

(** The records of the [insert] calls in a log. *)
Fixpoint inserted (log : list index_event) : list ParsedMessage :=
  match log with
  | [] => []
  | EvInsert p :: rest => p :: inserted rest
  | _ :: rest => inserted rest
  end.

Definition is_insert_many (e : index_event) : bool :=
  match e with EvInsertMany _ => true | _ => false end.

(** [s1] is obtained from [s2] by deleting characters. *)
Inductive subseq : str -> str -> Prop :=
| subseq_nil : subseq [] []
| subseq_skip c s1 s2 : subseq s1 s2 -> subseq s1 (c :: s2)
| subseq_keep c s1 s2 : subseq s1 s2 -> subseq (c :: s1) (c :: s2).

(** Number of tokens starting in [s]; [b] tells whether the character
    before [s] is whitespace (or [s] starts the string). *)
Fixpoint ntok (b : bool) (s : str) : nat :=
  match s with
  | [] => 0
  | c :: r => if is_space c then ntok true r else (if b then 1 else 0) + ntok false r
  end.

(** A store whose first result lacks the [content] property. *)
Definition keyless_system : RAGSystem :=
  mkRAGSystem (mkServices (fun _ => []) (fun _ _ => Ok [mkDoc [] 2; rain_doc 0])
                          (fun _ => Ok []))
              (S_ "content").

(** A message whose content property is [c]. *)
Definition text_doc (c : string) (d : Q) : Doc := mkDoc [(S_ "content", S_ c)] d.

(** A store whose search returns two messages and whose completion
    service fails. *)
Definition failing_completion_system : RAGSystem :=
  mkRAGSystem (mkServices (fun _ => []) (fun _ _ => Ok [rain_doc 0; rain_doc (1 # 2)])
                          (fun _ => Err CompletionFailure))
              (S_ "content").

(** A store whose search fails. *)
Definition failing_store_system : RAGSystem :=
  mkRAGSystem (mkServices (fun _ => []) (fun _ _ => Err StoreFailure) (fun _ => Ok []))
              (S_ "content").

(** The fields a [datetime] built by [strptime] can have. *)
Definition valid_datetime (t : datetime) : Prop :=
  1969 <= dt_year t <= 2068 /\ 1 <= dt_month t <= 12 /\
  1 <= dt_day t <= days_in_month (dt_year t) (dt_month t) /\
  dt_hour t <= 23 /\ dt_minute t <= 59.

(** No whitespace at either end. *)
Definition trimmed (s : str) : Prop :=
  (forall c, hd_error s = Some c -> is_space c = false) /\
  (forall c, hd_error (rev s) = Some c -> is_space c = false).

(** An event of the indexing log that is not an [insert_many] call and
    reports a batch of one if it reports a batch. *)
Definition one_insert_ok (e : index_event) : bool :=
  match e with
  | EvInsertMany _ => false
  | EvInsertedBatch b _ => b =? 1
  | _ => true
  end.

(** The string is ASCII text (code points below 128). *)
Definition ascii7 (s : str) : bool := forallb (fun c => nat_of_ascii c <? 128) s.

(** ** [is_informative_content] on code points

    The development above reads Python strings as ASCII text.  The
    module below reads them as lists of code points, for the alphabet of
    ASCII and the Greek letters U+0391..U+03A9 and U+03B1..U+03C9, and
    gives [str.lower] the behaviour of CPython's [do_lower] there:
    [_PyUnicode_ToLowerFull] maps A..Z and the Greek capitals 32 code
    points down, and the capital sigma U+03A3 goes through
    [handle_capital_sigma], which gives the final sigma U+03C2 when the
    sigma follows a cased letter and is not followed by one (case
    ignorable characters skipped on both sides), and U+03C3 otherwise.
    [lower] is [None] on a string with a code point outside the
    alphabet. *)
Module Unicode.

Abbreviation ustr := (list nat).

Definition of_str (s : str) : ustr := map nat_of_ascii s.

Definition is_ascii_upper (c : nat) : bool := (65 <=? c) && (c <=? 90).
Definition is_ascii_lower (c : nat) : bool := (97 <=? c) && (c <=? 122).

(** U+03A2 is unassigned. *)
Definition is_greek_upper (c : nat) : bool := (913 <=? c) && (c <=? 937) && negb (c =? 930).
Definition is_greek_lower (c : nat) : bool := (945 <=? c) && (c <=? 969).

Definition in_alphabet (c : nat) : bool := (c <? 128) || is_greek_upper c || is_greek_lower c.

Definition is_cased (c : nat) : bool :=
  is_ascii_upper c || is_ascii_lower c || is_greek_upper c || is_greek_lower c.

(** The case-ignorable characters of the alphabet: [' . : ^ `]. *)
Definition is_case_ignorable (c : nat) : bool := existsb (Nat.eqb c) [39; 46; 58; 94; 96].

Definition capital_sigma : nat := 931.

Definition to_lower_full (c : nat) : nat :=
  if is_ascii_upper c || is_greek_upper c then c + 32 else c.

Fixpoint drop_while (p : nat -> bool) (s : ustr) : ustr :=
  match s with
  | [] => []
  | c :: s' => if p c then drop_while p s' else s
  end.

(** Whether the first character that is not case ignorable is cased. *)
Definition cased_next (s : ustr) : bool :=
  match drop_while is_case_ignorable s with
  | c :: _ => is_cased c
  | [] => false
  end.

(** [handle_capital_sigma]; [before] is the text before the sigma,
    reversed, [after] the text after it. *)
Definition handle_capital_sigma (before after : ustr) : nat :=
  if cased_next before && negb (cased_next after) then 962 else 963.

Fixpoint lower_aux (before s : ustr) : ustr :=
  match s with
  | [] => []
  | c :: s' =>
      (if c =? capital_sigma then handle_capital_sigma before s' else to_lower_full c)
      :: lower_aux (c :: before) s'
  end.

Definition lower (s : ustr) : option ustr :=
  if forallb in_alphabet s then Some (lower_aux [] s) else None.

Definition is_space (c : nat) : bool :=
  ((9 <=? c) && (c <=? 13)) || ((28 <=? c) && (c <=? 32)).

Fixpoint startswith (s p : ustr) {struct p} : bool :=
  match p with
  | [] => true
  | c :: p' => match s with
               | [] => false
               | d :: s' => Nat.eqb c d && startswith s' p'
               end
  end.

Fixpoint contains (s sub : ustr) : bool :=
  startswith s sub ||
  match s with
  | [] => false
  | _ :: s' => contains s' sub
  end.

Definition mem_char (c : nat) (s : ustr) : bool := existsb (Nat.eqb c) s.

Definition rstrip_char (c : nat) (s : ustr) : ustr :=
  rev (drop_while (Nat.eqb c) (rev s)).

Definition strip (s : ustr) : ustr :=
  rev (drop_while is_space (rev (drop_while is_space s))).

Fixpoint split_aux (cur : ustr) (s : ustr) : list ustr :=
  match s with
  | [] => match cur with [] => [] | _ => [rev cur] end
  | c :: s' =>
      if is_space c then
        match cur with
        | [] => split_aux [] s'
        | _ => rev cur :: split_aux [] s'
        end
      else split_aux (c :: cur) s'
  end.

Definition split (s : ustr) : list ustr := split_aux [] s.

Fixpoint remove_occ (old : ustr) (skip : nat) (s : ustr) : ustr :=
  match s with
  | [] => []
  | c :: s' =>
      match skip with
      | S k => remove_occ old k s'
      | O => if startswith s old then remove_occ old (pred (length old)) s'
             else c :: remove_occ old 0 s'
      end
  end.

Definition replace_empty (s old : ustr) : ustr :=
  match old with
  | [] => s
  | _ => remove_occ old 0 s
  end.

Definition reference_phrases : list ustr := map of_str reference_phrases.

Definition qmark : nat := 63.

Definition is_informative_content (text query : ustr) : option bool :=
  match lower text, lower query with
  | Some text_lower, Some lq =>
      let query_lower := rstrip_char qmark lq in
      let cleaned_text := strip (replace_empty text_lower query_lower) in
      Some (if length (split cleaned_text) <? 5 then false
            else if startswith text_lower query_lower && mem_char qmark text then false
            else if existsb (fun phrase => contains cleaned_text phrase &&
                                           (length (split cleaned_text) <? 10))
                            reference_phrases then false
            else true)
  | _, _ => None
  end.

(** The text [U+0391 U+03A3 U+0391 " a b c d e?"] and the query
    [U+0391 U+03A3] (capital alpha, capital sigma). *)
Definition sigma_text : ustr := [913; 931; 913] ++ of_str (S_ " a b c d e?").
Definition sigma_query : ustr := [913; 931].

End Unicode.

(** * Properties *)

Example split_ex : split (S_ "  a bc  d ") = [S_ "a"; S_ "bc"; S_ "d"].
Proof. reflexivity. Qed.
Example replace_ex : replace_empty (S_ "aXXbXXXc") (S_ "XX") = S_ "abXc".
Proof. reflexivity. Qed.
Example rstrip_ex : rstrip_char "?"%char (S_ "ab??") = S_ "ab".
Proof. reflexivity. Qed.
Example inf_ex1 : is_informative_content (S_ "yes") (S_ "is it raining") = false.
Proof. reflexivity. Qed.
Example inf_ex2 : is_informative_content
  (S_ "it rained heavily all night and flooded the street") (S_ "is it raining") = true.
Proof. reflexivity. Qed.
Example inf_ex3 : is_informative_content
  (S_ "is it raining outside today?") (S_ "is it raining") = false.
Proof. reflexivity. Qed.
Example inf_ex4 : is_informative_content (S_ "Rain is a b c d?") (S_ "rain") = false.
Proof. reflexivity. Qed.

Example parse_ex1 :
  parse_message (mkIndexer (fun _ => [])) (S_ "3/5/24, 14:07 - Alice : hello there ")
  = Some (mkParsed (S_ "2024-03-05T14:07:00") (S_ "Alice") (S_ "hello there") []).
Proof. vm_compute. reflexivity. Qed.
Example parse_ex2 :
  parse_message (mkIndexer (fun _ => [])) (S_ "2/30/24, 9:07 - Bob: hi") = None.
Proof. vm_compute. reflexivity. Qed.
Example parse_ex3 :
  parse_message (mkIndexer (fun _ => [])) (S_ "12/31/99, 23:59 - Bob: hi")
  = Some (mkParsed (S_ "1999-12-31T23:59:00") (S_ "Bob") (S_ "hi") []).
Proof. vm_compute. reflexivity. Qed.
Example parse_ex4 :
  parse_message (mkIndexer (fun _ => [])) (S_ "13/1/24, 9:07 - Bob: hi") = None.
Proof. vm_compute. reflexivity. Qed.
Example parse_ex5 :
  parse_message (mkIndexer (fun _ => [])) (S_ "1/1/24, 24:00 - Bob: hi") = None.
Proof. vm_compute. reflexivity. Qed.
Example parse_ex6 :
  parse_message (mkIndexer (fun _ => [])) (S_ "2/29/24, 0:00 - Bob: a: b")
  = Some (mkParsed (S_ "2024-02-29T00:00:00") (S_ "Bob") (S_ "a: b") []).
Proof. vm_compute. reflexivity. Qed.

(** ** Lemmas on the string operations *)

Lemma lower_char_idem (c : ascii) : lower_char (lower_char c) = lower_char c.
Proof. destruct c as [[] [] [] [] [] [] [] []]; reflexivity. Qed.

Lemma lower_idem (s : str) : lower (lower s) = lower s.
Proof.
  unfold lower. rewrite map_map. apply map_ext. apply lower_char_idem.
Qed.

Lemma qmark_lower_char (c : ascii) :
  Ascii.eqb "?"%char (lower_char c) = Ascii.eqb "?"%char c.
Proof. destruct c as [[] [] [] [] [] [] [] []]; reflexivity. Qed.

Lemma mem_qmark_lower (s : str) : mem_char "?"%char (lower s) = mem_char "?"%char s.
Proof.
  unfold mem_char, lower. induction s as [|c s IH]; [reflexivity|].
  cbn [map existsb]. rewrite qmark_lower_char, IH. reflexivity.
Qed.

Lemma startswith_iff (s p : str) : startswith s p = true <-> exists t, s = p ++ t.
Proof.
  revert s. induction p as [|c p IH]; intros s; simpl.
  - split; [intros _; exists s; reflexivity | reflexivity].
  - destruct s as [|d s].
    + split; [discriminate | intros [t Ht]; discriminate].
    + rewrite andb_true_iff, Ascii.eqb_eq, IH. split.
      * intros [-> [t ->]]. exists t. reflexivity.
      * intros [t Ht]. injection Ht as -> ->. split; [reflexivity | exists t; reflexivity].
Qed.

Lemma drop_while_suffix (f : ascii -> bool) (l : str) :
  exists pre, l = pre ++ drop_while f l.
Proof.
  induction l as [|c l [pre IH]]; simpl.
  - exists []. reflexivity.
  - destruct (f c).
    + exists (c :: pre). simpl. rewrite <- IH. reflexivity.
    + exists []. reflexivity.
Qed.

Lemma rstrip_char_prefix (c : ascii) (s : str) :
  exists t, s = rstrip_char c s ++ t.
Proof.
  unfold rstrip_char. destruct (drop_while_suffix (Ascii.eqb c) (rev s)) as [pre Hpre].
  exists (rev pre). rewrite <- rev_app_distr, <- Hpre, rev_involutive. reflexivity.
Qed.

Lemma existsb_andb_r {A} (f : A -> bool) (b : bool) (l : list A) :
  existsb (fun x => f x && b) l = existsb f l && b.
Proof.
  induction l as [|x l IH]; simpl.
  - reflexivity.
  - rewrite IH. destruct (f x), b; simpl; try reflexivity.
    rewrite andb_false_r. reflexivity.
Qed.

(** * Claims on the informativeness filter *)

(** C2 (amended).  [is_informative_content] is the rule list of §4.3
    applied in order, where rule 1 lower-cases both strings and strips
    every trailing [?] from the query, as [rstrip('?')] does. *)
Theorem is_informative_rules_rstrip (text query : str) :
  is_informative_content text query =
  is_informative_rules (rstrip_char "?"%char) text query.
Proof.
  unfold is_informative_content. cbv zeta. rewrite existsb_andb_r.
  unfold is_informative_rules, spec_rules, spec_residual. cbn [first_verdict].
  destruct (_ <? 5); [reflexivity|].
  destruct (_ && _); [reflexivity|].
  destruct (_ && _); reflexivity.
Qed.

(** C2 (counterexample).  With a query ending in two [?], the rules read
    with one stripped [?] accept a text that the code rejects. *)
Lemma is_informative_strip_one_cex :
  ~ (forall text query,
       is_informative_content text query = is_informative_rules strip_one_qmark text query).
Proof.
  intros H. specialize (H (S_ "rain! a b c d e?") (S_ "rain??")).
  vm_compute in H. discriminate H.
Qed.

(** C5.  A residual of fewer than five whitespace-separated tokens makes
    the filter reject the text. *)
Theorem is_informative_short_residual (text query : str) :
  (length (split (residual text query)) < 5)%nat ->
  is_informative_content text query = false.
Proof.
  intros H. unfold is_informative_content. unfold residual in H.
  apply Nat.ltb_lt in H. cbv zeta. rewrite H. reflexivity.
Qed.

(** On the ASCII reading, a text that starts with the query and
    contains a [?] is rejected. *)
Theorem is_informative_restated_question (text query : str) :
  startswith text query = true -> mem_char "?"%char text = true ->
  is_informative_content text query = false.
Proof.
  intros Hs Hq. unfold is_informative_content. cbv zeta.
  destruct (_ <? 5); [reflexivity|].
  assert (Hl : startswith (lower text) (rstrip_char "?"%char (lower query)) = true).
  { apply startswith_iff in Hs as [t ->].
    destruct (rstrip_char_prefix "?"%char (lower query)) as [u Hu].
    apply startswith_iff. exists (u ++ lower t).
    unfold lower at 1. rewrite map_app. fold (lower query). fold (lower t).
    rewrite Hu at 1. rewrite app_assoc. reflexivity. }
  rewrite Hl, Hq. reflexivity.
Qed.

(** C7 (amended).  The filter accepts a text whose residual has at least
    five tokens, where the lower-cased text does not both start with the
    lower-cased, [?]-stripped query and contain a [?], and where the
    residual does not both contain a reference phrase and have fewer than
    ten tokens. *)
Theorem is_informative_accepts (text query : str) :
  (5 <= length (split (residual text query)))%nat ->
  ~ (startswith (lower text) (rstrip_char "?"%char (lower query)) = true /\
     mem_char "?"%char text = true) ->
  ~ ((exists phrase, In phrase reference_phrases /\
                     contains (residual text query) phrase = true) /\
     (length (split (residual text query)) < 10)%nat) ->
  is_informative_content text query = true.
Proof.
  intros H5 Hq Hr. unfold is_informative_content. unfold residual in H5, Hr. cbv zeta.
  replace (length (split _) <? 5) with false
    by (symmetry; apply Nat.ltb_ge; exact H5).
  destruct (startswith _ _ && mem_char _ _) eqn:E.
  { exfalso. apply Hq. apply andb_true_iff. exact E. }
  destruct (existsb _ reference_phrases) eqn:Ex; [|reflexivity].
  exfalso. apply Hr. apply existsb_exists in Ex as [phrase [Hin Hc]].
  apply andb_true_iff in Hc as [Hc Hl].
  split; [exists phrase; split; assumption | apply Nat.ltb_lt; exact Hl].
Qed.

(** C7 (counterexample).  Read with the original strings, the condition
    "the text starts with the query and contains [?]" misses the
    case-insensitive test of the code: ["Rain is a b c d?"] does not
    start with ["rain"], meets the other conditions, and is rejected. *)
Lemma is_informative_accepts_literal_cex :
  ~ (forall text query,
       (5 <= length (split (residual text query)))%nat ->
       ~ (startswith text query = true /\ mem_char "?"%char text = true) ->
       ~ ((exists phrase, In phrase reference_phrases /\
                          contains (residual text query) phrase = true) /\
          (length (split (residual text query)) < 10)%nat) ->
       is_informative_content text query = true).
Proof.
  intros H. specialize (H (S_ "Rain is a b c d?") (S_ "rain")).
  assert (Hf : is_informative_content (S_ "Rain is a b c d?") (S_ "rain") = false)
    by (vm_compute; reflexivity).
  rewrite Hf in H. discriminate H.
  - vm_compute. lia.
  - vm_compute. intros [Hs _]. discriminate Hs.
  - intros [[phrase [Hin Hc]] _]. simpl in Hin.
    destruct Hin as [<- | [<- | [<- | []]]]; vm_compute in Hc; discriminate Hc.
Qed.

(** C10.  Lower-casing both arguments does not change the verdict. *)
Theorem is_informative_lower_invariant (text query : str) :
  is_informative_content (lower text) (lower query) =
  is_informative_content text query.
Proof.
  unfold is_informative_content. rewrite !lower_idem, mem_qmark_lower. reflexivity.
Qed.

(** * The retriever *)

Lemma filter_results_sound field query thr objs l :
  filter_results field query thr objs = Ok l ->
  forall d, In d l -> (distance d <= thr)%Q /\ In d objs.
Proof.
  revert l. induction objs as [|o objs IH]; intros l H d Hd; simpl in H.
  - injection H as <-. destruct Hd.
  - destruct (Qle_bool (distance o) thr) eqn:Ht.
    + destruct (lookup field (properties o)) as [text|]; [|discriminate].
      destruct (is_informative_content text query).
      * destruct (filter_results field query thr objs) as [l'|] eqn:E; [|discriminate].
        injection H as <-. destruct Hd as [<- | Hd].
        -- split; [apply Qle_bool_iff; exact Ht | left; reflexivity].
        -- destruct (IH l' eq_refl d Hd). split; [assumption | right; assumption].
      * destruct (IH l H d Hd). split; [assumption | right; assumption].
    + destruct (IH l H d Hd). split; [assumption | right; assumption].
Qed.

Lemma insert_by_distance_perm x l : Permutation (insert_by_distance x l) (x :: l).
Proof.
  induction l as [|y l IH]; simpl; [reflexivity|].
  destruct (Qle_bool (distance x) (distance y)); [reflexivity|].
  rewrite IH. apply perm_swap.
Qed.

Lemma sort_by_distance_perm l : Permutation (sort_by_distance l) l.
Proof.
  induction l as [|x l IH]; simpl; [reflexivity|].
  rewrite insert_by_distance_perm, IH. reflexivity.
Qed.

Lemma insert_by_distance_hd y x l :
  HdRel dist_le y l -> dist_le y x -> HdRel dist_le y (insert_by_distance x l).
Proof.
  intros Hl Hyx. destruct l as [|z l]; simpl.
  - constructor. exact Hyx.
  - destruct (Qle_bool (distance x) (distance z)); constructor;
      [exact Hyx | inversion Hl; assumption].
Qed.

Lemma insert_by_distance_sorted x l :
  Sorted dist_le l -> Sorted dist_le (insert_by_distance x l).
Proof.
  induction l as [|y l IH]; intros Hs; simpl.
  - constructor; constructor.
  - destruct (Qle_bool (distance x) (distance y)) eqn:E.
    + constructor; [exact Hs | constructor; apply Qle_bool_iff; exact E].
    + inversion Hs as [|? ? Hs' Hhd]; subst. constructor; [apply IH; exact Hs'|].
      apply insert_by_distance_hd; [exact Hhd|].
      unfold dist_le. apply Qlt_le_weak, Qnot_le_lt.
      intros Hle. apply Qle_bool_iff in Hle. congruence.
Qed.

Lemma sort_by_distance_sorted l : Sorted dist_le (sort_by_distance l).
Proof.
  induction l as [|x l IH]; simpl; [constructor|].
  apply insert_by_distance_sorted. exact IH.
Qed.

Lemma firstn_sorted {A} (R : A -> A -> Prop) n l :
  Sorted R l -> Sorted R (firstn n l).
Proof.
  revert l. induction n as [|n IH]; intros l Hs; [constructor|].
  destruct l as [|x l]; [constructor|]. simpl.
  inversion Hs as [|? ? Hs' Hhd]; subst. constructor; [apply IH; exact Hs'|].
  destruct n, l; simpl; constructor. inversion Hhd. assumption.
Qed.

Lemma slice_to_sorted {A} (R : A -> A -> Prop) limit l :
  Sorted R l -> Sorted R (slice_to limit l).
Proof. apply firstn_sorted. Qed.

Lemma slice_to_incl {A} limit (l : list A) x : In x (slice_to limit l) -> In x l.
Proof.
  unfold slice_to. generalize (Z.to_nat (if (0 <=? limit)%Z then limit
                                        else (Z.of_nat (length l) + limit)%Z)).
  intros n Hx. rewrite <- (firstn_skipn n l). apply in_or_app. left. exact Hx.
Qed.

Lemma retrieve_relevant_context_ok self query limit thr w l w' :
  retrieve_relevant_context self query limit thr w = (Ok l, w') ->
  exists response filtered,
    near_vector (services self) (encode (services self) query) 100 = Ok response /\
    filter_results (embedding_field self) query thr response = Ok filtered /\
    l = slice_to limit (sort_by_distance filtered).
Proof.
  unfold retrieve_relevant_context, bind, call_near_vector, lift, ret.
  destruct (near_vector _ _ _) as [response|e] eqn:En; [|discriminate].
  destruct (filter_results _ _ _ _) as [filtered|e] eqn:Ef; [|discriminate].
  intros H. injection H as <- _. exists response, filtered. repeat split; assumption.
Qed.

(** C1 (amended).  A list returned by [retrieve_relevant_context] is
    sorted by non-decreasing distance, every item has distance at most
    [distance_threshold] and comes from the store's response, it is a
    prefix of the sorted candidates that passed the threshold and
    informativeness tests, and for a non-negative [limit] it has at most
    [limit] items. *)
Theorem retrieve_sorted_bounded self query limit thr w l w' :
  retrieve_relevant_context self query limit thr w = (Ok l, w') ->
  Sorted dist_le l /\
  (forall d, In d l -> (distance d <= thr)%Q) /\
  ((0 <= limit)%Z -> (length l <= Z.to_nat limit)%nat) /\
  exists response filtered,
    near_vector (services self) (encode (services self) query) 100 = Ok response /\
    filter_results (embedding_field self) query thr response = Ok filtered /\
    l = slice_to limit (sort_by_distance filtered) /\
    (forall d, In d filtered -> (distance d <= thr)%Q /\ In d response).
Proof.
  intros H. destruct (retrieve_relevant_context_ok _ _ _ _ _ _ _ H)
    as [response [filtered [Hn [Hf ->]]]].
  pose proof (filter_results_sound _ _ _ _ _ Hf) as Hs.
  split; [apply slice_to_sorted, sort_by_distance_sorted|].
  split.
  { intros d Hd. apply slice_to_incl in Hd.
    apply (Permutation_in _ (sort_by_distance_perm filtered)) in Hd.
    apply Hs. exact Hd. }
  split.
  { intros Hl. unfold slice_to. apply Z.leb_le in Hl. rewrite Hl.
    apply firstn_le_length. }
  exists response, filtered. split; [exact Hn|]. split; [exact Hf|].
  split; [reflexivity | exact Hs].
Qed.

(** C1 (counterexample).  With [limit = -1] the slice [[:limit]] drops
    the last item instead of bounding the length by [limit]: two eligible
    candidates give a one-item result. *)
Lemma retrieve_negative_limit_cex :
  ~ (forall self query limit thr w l w',
       retrieve_relevant_context self query limit thr w = (Ok l, w') ->
       (Z.of_nat (length l) <= limit)%Z).
Proof.
  intros H.
  set (r := retrieve_relevant_context two_doc_system (S_ "is it raining") (-1) (3 # 4)
              (mkWorld true [])).
  assert (E : r = (Ok [rain_doc 0], snd r)) by (vm_compute; reflexivity).
  specialize (H _ _ _ _ _ _ _ E). simpl in H. lia.
Qed.

(** * The prompt builder *)

Lemma sort_by_distance_sorted_id l : Sorted dist_le l -> sort_by_distance l = l.
Proof.
  induction l as [|x l IH]; intros Hs; [reflexivity|].
  inversion Hs as [|? ? Hs' Hhd]; subst. simpl. rewrite (IH Hs').
  destruct l as [|y l]; [reflexivity|]. simpl.
  inversion Hhd as [|? ? Hxy]; subst. unfold dist_le in Hxy.
  apply Qle_bool_iff in Hxy. rewrite Hxy. reflexivity.
Qed.

Lemma contents_ok field docs :
  (forall d, In d docs -> exists c, lookup field (properties d) = Some c) ->
  exists cs, contents field docs = Ok cs /\
             Forall2 (fun d c => lookup field (properties d) = Some c) docs cs.
Proof.
  induction docs as [|d docs IH]; intros H; simpl.
  - exists []. split; [reflexivity | constructor].
  - destruct (H d (or_introl eq_refl)) as [c Hc]. rewrite Hc.
    destruct IH as [cs [Hcs Hall]]; [intros d' Hd'; apply H; right; exact Hd'|].
    rewrite Hcs. exists (c :: cs). split; [reflexivity | constructor; assumption].
Qed.

Lemma join_infix sep cs c : In c cs -> infix c (join sep cs).
Proof.
  induction cs as [|c' cs IH]; intros Hin; [destruct Hin|].
  destruct Hin as [<- | Hin].
  - destruct cs as [|c'' cs].
    + exists [], []. simpl. rewrite app_nil_r. reflexivity.
    + exists [], (sep ++ join sep (c'' :: cs)). reflexivity.
  - destruct (IH Hin) as [x [y Hxy]]. destruct cs as [|c'' cs]; [destruct Hin|].
    exists (c' ++ sep ++ x), y. change (join sep (c' :: c'' :: cs))
      with (c' ++ sep ++ join sep (c'' :: cs)).
    rewrite Hxy. rewrite !app_assoc. reflexivity.
Qed.

Lemma Forall2_in_r {A B} (R : A -> B -> Prop) l1 l2 a :
  Forall2 R l1 l2 -> In a l1 -> exists b, R a b /\ In b l2.
Proof.
  induction 1 as [|x y l1 l2 Hxy _ IH]; intros Hin; [destruct Hin|].
  destruct Hin as [<- | Hin].
  - exists y. split; [exact Hxy | left; reflexivity].
  - destruct (IH Hin) as [b [Hb Hb']]. exists b. split; [exact Hb | right; exact Hb'].
Qed.

(** C8.  When every message of the context has the content property,
    [generate_prompt] returns the template filled with the query and
    with the contents of the messages sorted by ascending distance,
    joined by a blank line; the prompt contains the query and every
    message's content, and an already sorted context keeps its order. *)
Theorem generate_prompt_contents self query context :
  (forall d, In d context ->
             exists c, lookup (embedding_field self) (properties d) = Some c) ->
  exists cs,
    contents (embedding_field self) (sort_by_distance context) = Ok cs /\
    Sorted dist_le (sort_by_distance context) /\
    Permutation (sort_by_distance context) context /\
    generate_prompt self query context =
      Ok (prompt_head ++ join (nl ++ nl) cs ++ prompt_mid ++ query ++ prompt_tail) /\
    infix query (prompt_head ++ join (nl ++ nl) cs ++ prompt_mid ++ query ++ prompt_tail) /\
    (forall d c, In d context -> lookup (embedding_field self) (properties d) = Some c ->
       infix c (prompt_head ++ join (nl ++ nl) cs ++ prompt_mid ++ query ++ prompt_tail)) /\
    (Sorted dist_le context -> sort_by_distance context = context).
Proof.
  intros H. pose proof (sort_by_distance_perm context) as Hp.
  destruct (contents_ok (embedding_field self) (sort_by_distance context)) as [cs [Hcs Hall]].
  { intros d Hd. apply H. apply (Permutation_in _ Hp). exact Hd. }
  exists cs. split; [exact Hcs|]. split; [apply sort_by_distance_sorted|].
  split; [exact Hp|]. split.
  { unfold generate_prompt. rewrite Hcs. reflexivity. }
  split.
  { exists (prompt_head ++ join (nl ++ nl) cs ++ prompt_mid), prompt_tail.
    rewrite !app_assoc. reflexivity. }
  split; [|apply sort_by_distance_sorted_id].
  intros d c Hd Hc.
  apply (Permutation_in _ (Permutation_sym Hp)) in Hd.
  destruct (Forall2_in_r _ _ _ _ Hall Hd) as [c' [Hc' Hin]].
  rewrite Hc in Hc'. injection Hc' as <-.
  destruct (join_infix (nl ++ nl) cs c Hin) as [x [y Hxy]].
  exists (prompt_head ++ x), (y ++ prompt_mid ++ query ++ prompt_tail).
  rewrite Hxy. rewrite !app_assoc. reflexivity.
Qed.

(** * The pipeline orchestrator *)

Lemma appends_ret {A} (a : A) : appends (ret a).
Proof. intros w. split; [reflexivity | exists []; rewrite app_nil_r; reflexivity]. Qed.

Lemma appends_lift {A} (r : result A) : appends (lift r).
Proof. intros w. split; [reflexivity | exists []; rewrite app_nil_r; reflexivity]. Qed.

Lemma appends_emit {A} (r : result A) e : appends (fun w => (r, emit e w)).
Proof. intros w. split; [reflexivity | exists [e]; reflexivity]. Qed.

Lemma appends_bind {A B} (m : M A) (f : A -> M B) :
  appends m -> (forall a, appends (f a)) -> appends (bind m f).
Proof.
  intros Hm Hf w. unfold bind. destruct (Hm w) as [Ho [evs He]].
  destruct (m w) as [[a|e] w1]; simpl in *.
  - destruct (Hf a w1) as [Ho' [evs' He']]. split; [congruence|].
    exists (evs ++ evs'). rewrite He', He, app_assoc. reflexivity.
  - split; [exact Ho | exists evs; exact He].
Qed.

Lemma retrieve_world self query limit thr w :
  snd (retrieve_relevant_context self query limit thr w) =
  emit (EvNearVector (encode (services self) query) 100) w.
Proof.
  unfold retrieve_relevant_context, bind, call_near_vector, lift, ret.
  destruct (near_vector _ _ _); [|reflexivity].
  destruct (filter_results _ _ _ _); reflexivity.
Qed.

Lemma appends_retrieve self query limit thr :
  appends (retrieve_relevant_context self query limit thr).
Proof.
  intros w. rewrite retrieve_world. split; [reflexivity | eexists; reflexivity].
Qed.

Lemma appends_query_body self user_query : appends (query_body self user_query).
Proof.
  unfold query_body. apply appends_bind; [apply appends_retrieve|].
  intros [|d docs]; [apply appends_ret|].
  apply appends_bind; [apply appends_lift|]. intros prompt.
  apply appends_bind; [apply appends_emit|]. intros _. apply appends_emit.
Qed.

(** C9.  [query] returns exactly what its [try] block returns (the
    no-context message, the completion's answer, or the failure raised
    by retrieval, prompt building or completion) and on every one of
    these paths closes the client: the connection ends closed and the
    last event is [client.close()]. *)
Theorem query_releases_client self user_query w :
  query self user_query w =
    (fst (query_body self user_query w), close_world (snd (query_body self user_query w))) /\
  client_open (snd (query self user_query w)) = false /\
  exists evs, events (snd (query self user_query w)) = events w ++ evs ++ [EvClose].
Proof.
  assert (Hq : query self user_query w =
    (fst (query_body self user_query w), close_world (snd (query_body self user_query w)))).
  { unfold query, try_finally, client_close.
    destruct (query_body self user_query w) as [r w0]. reflexivity. }
  split; [exact Hq|]. rewrite Hq. split; [reflexivity|].
  destruct (appends_query_body self user_query w) as [_ [evs He]].
  exists evs. simpl. rewrite He, app_assoc. reflexivity.
Qed.

(** C3.  When retrieval returns an empty list, [query] returns the fixed
    no-context message (a normal result, not an exception), and the only
    calls it makes are the vector search and [client.close()]: the
    completion service is not called. *)
Theorem query_empty_retrieval self user_query w w1 :
  retrieve_relevant_context self user_query 7 (3 # 4) w = (Ok [], w1) ->
  query self user_query w = (Ok no_info_message, close_world w1) /\
  events (close_world w1) =
    events w ++ [EvNearVector (encode (services self) user_query) 100; EvClose] /\
  (forall prompt, In (EvComplete prompt) (events (close_world w1)) ->
                  In (EvComplete prompt) (events w)).
Proof.
  intros H.
  assert (Hw : w1 = emit (EvNearVector (encode (services self) user_query) 100) w).
  { rewrite <- (retrieve_world self user_query 7 (3 # 4) w), H. reflexivity. }
  assert (He : events (close_world w1) =
    events w ++ [EvNearVector (encode (services self) user_query) 100; EvClose]).
  { rewrite Hw. simpl. rewrite <- app_assoc. reflexivity. }
  split.
  { unfold query, try_finally, query_body, client_close. unfold bind at 1.
    rewrite H. reflexivity. }
  split; [exact He|].
  intros prompt Hin. rewrite He in Hin. apply in_app_or in Hin as [Hin | Hin]; [exact Hin|].
  simpl in Hin. destruct Hin as [Hin | [Hin | []]]; discriminate Hin.
Qed.

(** * The message parser *)

Lemma one_char_some p s r : one_char p s = Some r -> exists c, s = c :: r /\ p c = true.
Proof.
  destruct s as [|c s]; simpl; [discriminate|].
  destruct (p c) eqn:E; [|discriminate]. intros H; injection H as <-. eauto.
Qed.

Lemma lit_some c s r : lit c s = Some r -> s = c :: r.
Proof.
  intros H. apply one_char_some in H as [c' [-> Hc]].
  apply Ascii.eqb_eq in Hc. subst. reflexivity.
Qed.

Lemma one_char_cons p c r : p c = true -> one_char p (c :: r) = Some r.
Proof. intros H. simpl. rewrite H. reflexivity. Qed.

Lemma lit_cons c r : lit c (c :: r) = Some r.
Proof. apply one_char_cons. apply Ascii.eqb_refl. Qed.

Lemma digits12_some s m r :
  digits12 s = Some (m, r) ->
  s = m ++ r /\ forallb is_digit m = true /\ (length m = 1 \/ length m = 2).
Proof.
  destruct s as [|a s]; simpl; [discriminate|].
  destruct (is_digit a) eqn:Ea; [|discriminate].
  destruct s as [|b s].
  - intros H; injection H as <- <-. simpl. rewrite Ea. auto.
  - destruct (is_digit b) eqn:Eb; intros H; injection H as <- <-; simpl;
      rewrite ?Ea, ?Eb; auto.
Qed.

Lemma digits2_some s y r :
  digits2 s = Some (y, r) -> s = y ++ r /\ forallb is_digit y = true /\ length y = 2.
Proof.
  destruct s as [|a [|b s]]; simpl; try discriminate.
  destruct (is_digit a && is_digit b) eqn:E; [|discriminate].
  intros H; injection H as <- <-. simpl. rewrite andb_true_r. auto.
Qed.

Lemma digits12_app m x r :
  forallb is_digit m = true -> (length m = 1 \/ length m = 2) -> is_digit x = false ->
  digits12 (m ++ x :: r) = Some (m, x :: r).
Proof.
  intros Hd Hl Hx. destruct m as [|a [|b [|c m]]]; simpl in *; try lia.
  - rewrite andb_true_r in Hd. rewrite Hd, Hx. reflexivity.
  - rewrite andb_true_r in Hd. apply andb_true_iff in Hd as [Ha Hb].
    rewrite Ha, Hb. reflexivity.
Qed.

Lemma digits2_app y r :
  forallb is_digit y = true -> length y = 2 -> digits2 (y ++ r) = Some (y, r).
Proof.
  intros Hd Hl. destruct y as [|a [|b [|c y]]]; simpl in *; try lia.
  rewrite andb_true_r in Hd. rewrite Hd. reflexivity.
Qed.

Lemma span_spec p s :
  s = fst (span p s) ++ snd (span p s) /\ forallb p (fst (span p s)) = true /\
  stops p (snd (span p s)).
Proof.
  induction s as [|c s [IH1 [IH2 IH3]]]; simpl.
  - split; [reflexivity | split; [reflexivity | left; reflexivity]].
  - destruct (p c) eqn:E.
    + destruct (span p s) as [a b]. simpl in *.
      split; [rewrite <- IH1; reflexivity|]. rewrite E. auto.
    + simpl. split; [reflexivity | split; [reflexivity | right; eauto]].
Qed.

Lemma span_app p a r :
  forallb p a = true -> stops p r -> span p (a ++ r) = (a, r).
Proof.
  intros Ha Hr. induction a as [|c a IH]; simpl in *.
  - destruct Hr as [-> | [c [r' [-> Hc]]]]; simpl; [reflexivity|]. rewrite Hc. reflexivity.
  - apply andb_true_iff in Ha as [Hc Ha]. rewrite Hc, (IH Ha). reflexivity.
Qed.

Lemma plus_class_some p s a r :
  plus_class p s = Some (a, r) ->
  a <> [] /\ s = a ++ r /\ forallb p a = true /\ stops p r.
Proof.
  unfold plus_class. destruct (span_spec p s) as [H1 [H2 H3]].
  destruct (span p s) as [a' r'] eqn:E. simpl in *.
  destruct a' as [|c a']; [discriminate|]. intros H; injection H as <- <-.
  split; [discriminate | auto].
Qed.

Lemma plus_class_app p a r :
  a <> [] -> forallb p a = true -> stops p r -> plus_class p (a ++ r) = Some (a, r).
Proof.
  intros Hn Ha Hr. unfold plus_class. rewrite (span_app p a r Ha Hr).
  destruct a; [contradiction | reflexivity].
Qed.

(** Case analysis on the next [let*] of a matcher. *)
Ltac match_step :=
  match goal with
  | |- context [match ?e with Some _ => _ | None => None end] =>
      let E := fresh "E" in
      destruct e as [[?x ?y] | ] eqn:E || destruct e as [?x | ] eqn:E;
      [ | discriminate ]
  end.

Lemma match_line_sound line date time sender content :
  match_line line = Some (date, time, sender, content) ->
  line_matches line date time sender content.
Proof.
  unfold match_line. repeat match_step. intros H. injection H as <- <- <- <-.
  apply digits12_some in E as [-> [Hm Hlm]].
  apply lit_some in E0 as ->.
  apply digits12_some in E1 as [-> [Hd Hld]].
  apply lit_some in E2 as ->.
  apply digits2_some in E3 as [-> [Hy Hly]].
  apply lit_some in E4 as ->.
  apply one_char_some in E5 as [w1 [-> Hw1]].
  apply digits12_some in E6 as [-> [Hh Hlh]].
  apply lit_some in E7 as ->.
  apply digits2_some in E8 as [-> [Hmi Hlmi]].
  apply one_char_some in E9 as [w2 [-> Hw2]].
  apply lit_some in E10 as ->.
  apply one_char_some in E11 as [w3 [-> Hw3]].
  apply plus_class_some in E12 as [Hs [-> [Hs1 Hs2]]].
  apply lit_some in E13 as ->.
  apply one_char_some in E14 as [w4 [-> Hw4]].
  apply plus_class_some in E15 as [Hc [-> [Hc1 Hc2]]].
  exists x, x1, x3, x6, x8, w1, w2, w3, w4, y5.
  rewrite !forallb_app, Hm, Hd, Hy, Hh, Hmi, Hw1, Hw2, Hw3, Hw4.
  repeat split; auto.
  - destruct Hc2 as [-> | [c [r [-> Hr]]]]; [left; reflexivity | right].
    exists r. unfold not_newline in Hr. apply negb_false_iff, Ascii.eqb_eq in Hr.
    rewrite Hr. reflexivity.
  - rewrite <- !app_assoc. simpl. rewrite <- !app_assoc. reflexivity.
Qed.

Lemma match_line_complete line date time sender content :
  line_matches line date time sender content ->
  match_line line = Some (date, time, sender, content).
Proof.
  intros (m & d & y & h & mi & w1 & w2 & w3 & w4 & rest & Hdig & Hlm & Hld & Hly & Hlh
          & Hlmi & Hw & Hsn & Hs & Hcn & Hc & Hrest & -> & -> & ->).
  rewrite !forallb_app in Hdig.
  apply andb_true_iff in Hdig as [Hm Hdig]. apply andb_true_iff in Hdig as [Hd Hdig].
  apply andb_true_iff in Hdig as [Hy Hdig]. apply andb_true_iff in Hdig as [Hh Hmi].
  apply andb_true_iff in Hw as [Hw Hw4]. apply andb_true_iff in Hw as [Hw Hw3].
  apply andb_true_iff in Hw as [Hw1 Hw2].
  rewrite <- !app_assoc. cbn [app]. rewrite <- ?app_assoc. cbn [app].
  rewrite <- ?app_assoc. unfold match_line.
  rewrite (digits12_app m "/"%char) by (assumption || reflexivity). cbv beta iota.
  rewrite lit_cons. cbv beta iota.
  rewrite (digits12_app d "/"%char) by (assumption || reflexivity). cbv beta iota.
  rewrite lit_cons. cbv beta iota.
  rewrite (digits2_app y) by assumption. cbv beta iota.
  rewrite lit_cons. cbv beta iota.
  rewrite (one_char_cons is_space w1) by assumption. cbv beta iota.
  rewrite (digits12_app h ":"%char) by (assumption || reflexivity). cbv beta iota.
  rewrite lit_cons. cbv beta iota.
  rewrite (digits2_app mi) by assumption. cbv beta iota.
  rewrite (one_char_cons is_space w2) by assumption. cbv beta iota.
  rewrite lit_cons. cbv beta iota.
  rewrite (one_char_cons is_space w3) by assumption. cbv beta iota.
  rewrite (plus_class_app not_colon sender) by
    (assumption || (right; eexists; eexists; split; reflexivity)). cbv beta iota.
  rewrite lit_cons. cbv beta iota.
  rewrite (one_char_cons is_space w4) by assumption. cbv beta iota.
  rewrite (plus_class_app not_newline content rest); [reflexivity | assumption | assumption |].
  destruct Hrest as [-> | [r ->]]; [left; reflexivity | right; eauto].
Qed.

(** C4.  For a line of the form [<date>, <time> - <sender>: <content>]
    (the language of the pattern, with its four groups) whose timestamp
    [strptime] parses, [parse_message] returns the record with the ISO
    form of the parsed datetime and the trimmed sender and content; for
    such a line whose timestamp does not parse, and for a line outside
    the pattern, it returns [None]. *)
Theorem parse_message_spec self line :
  (forall date time sender content ts,
     line_matches line date time sender content ->
     strptime (date ++ " "%char :: time) = Some ts ->
     parse_message self line =
       Some (mkParsed (isoformat ts) (strip sender) (strip content)
                      (model_encode self content))) /\
  (forall date time sender content,
     line_matches line date time sender content ->
     strptime (date ++ " "%char :: time) = None ->
     parse_message self line = None) /\
  ((forall date time sender content, ~ line_matches line date time sender content) ->
   parse_message self line = None).
Proof.
  unfold parse_message. split; [|split].
  - intros date time sender content ts Hm Ht.
    rewrite (match_line_complete _ _ _ _ _ Hm), Ht. reflexivity.
  - intros date time sender content Hm Ht.
    rewrite (match_line_complete _ _ _ _ _ Hm), Ht. reflexivity.
  - intros Hn. destruct (match_line line) as [[[[date time] sender] content]|] eqn:E;
      [|reflexivity].
    exfalso. apply (Hn date time sender content). apply match_line_sound. exact E.
Qed.

(** * Witnesses *)

Lemma sample_line_matches :
  line_matches sample_line (S_ "3/5/24") (S_ "14:07") (S_ "Alice ") (S_ "hello there ").
Proof.
  exists (S_ "3"), (S_ "5"), (S_ "24"), (S_ "14"), (S_ "07"),
         " "%char, " "%char, " "%char, " "%char, [].
  repeat split; try (left; reflexivity); try (right; reflexivity); discriminate.
Qed.

Lemma parse_message_spec_witness :
  parse_message (mkIndexer (fun _ => [])) sample_line =
    Some (mkParsed (S_ "2024-03-05T14:07:00") (S_ "Alice") (S_ "hello there") []).
Proof.
  rewrite (proj1 (parse_message_spec (mkIndexer (fun _ => [])) sample_line)
             (S_ "3/5/24") (S_ "14:07") (S_ "Alice ") (S_ "hello there ")
             (mkDatetime 2024 3 5 14 7) sample_line_matches).
  - vm_compute. reflexivity.
  - vm_compute. reflexivity.
Defined.

Lemma is_informative_short_residual_witness :
  is_informative_content (S_ "yes") (S_ "is it raining") = false.
Proof.
  apply is_informative_short_residual. vm_compute. lia.
Defined.

Lemma is_informative_accepts_witness :
  is_informative_content (S_ "it rained heavily all night and flooded the street")
                         (S_ "is it raining") = true.
Proof.
  apply is_informative_accepts.
  - vm_compute. lia.
  - vm_compute. intros [H _]. discriminate H.
  - intros [[phrase [Hin Hc]] _]. simpl in Hin.
    destruct Hin as [<- | [<- | [<- | []]]]; vm_compute in Hc; discriminate Hc.
Defined.

Lemma retrieve_sorted_bounded_witness :
  Sorted dist_le [rain_doc 0; rain_doc (1 # 2)] /\
  (forall d, In d [rain_doc 0; rain_doc (1 # 2)] -> (distance d <= 3 # 4)%Q).
Proof.
  set (r := retrieve_relevant_context two_doc_system (S_ "is it raining") 7 (3 # 4)
              (mkWorld true [])).
  assert (E : r = (Ok [rain_doc 0; rain_doc (1 # 2)], snd r)) by (vm_compute; reflexivity).
  destruct (retrieve_sorted_bounded _ _ _ _ _ _ _ E) as [Hs [Ht _]].
  split; [exact Hs | exact Ht].
Defined.

Lemma generate_prompt_contents_witness :
  generate_prompt two_doc_system (S_ "is it raining")
    [text_doc "third" (1 # 2); text_doc "first" 0; text_doc "second" (1 # 4)] =
    Ok (prompt_head ++ S_ "first" ++ nl ++ nl ++ S_ "second" ++ nl ++ nl ++ S_ "third"
        ++ prompt_mid ++ S_ "is it raining" ++ prompt_tail) /\
  sort_by_distance [text_doc "first" 0; text_doc "second" (1 # 4); text_doc "third" (1 # 2)] =
    [text_doc "first" 0; text_doc "second" (1 # 4); text_doc "third" (1 # 2)].
Proof.
  split.
  - destruct (generate_prompt_contents two_doc_system (S_ "is it raining")
                [text_doc "third" (1 # 2); text_doc "first" 0; text_doc "second" (1 # 4)])
      as [cs [Hcs [_ [_ [H _]]]]].
    + intros d [<- | [<- | [<- | []]]]; eexists; reflexivity.
    + vm_compute in Hcs. injection Hcs as <-. rewrite H. reflexivity.
  - destruct (generate_prompt_contents two_doc_system (S_ "is it raining")
                [text_doc "first" 0; text_doc "second" (1 # 4); text_doc "third" (1 # 2)])
      as [cs [_ [_ [_ [_ [_ [_ Hsorted]]]]]]].
    + intros d [<- | [<- | [<- | []]]]; eexists; reflexivity.
    + apply Hsorted. unfold dist_le.
      repeat constructor; vm_compute; discriminate.
Defined.

Lemma query_empty_retrieval_witness :
  fst (query (mkRAGSystem (mkServices (fun _ => []) (fun _ _ => Ok []) (fun _ => Ok []))
                          (S_ "content"))
             (S_ "is it raining") (mkWorld true [])) = Ok no_info_message.
Proof.
  set (self := mkRAGSystem (mkServices (fun _ => []) (fun _ _ => Ok []) (fun _ => Ok []))
                           (S_ "content")).
  set (r := retrieve_relevant_context self (S_ "is it raining") 7 (3 # 4) (mkWorld true [])).
  assert (E : r = (Ok [], snd r)) by (vm_compute; reflexivity).
  destruct (query_empty_retrieval _ _ _ _ E) as [Hq _]. rewrite Hq. reflexivity.
Defined.

(** * Further properties *)

(** ** Token counts under deletion *)

Lemma split_aux_length cur s :
  length (split_aux cur s) =
  (match cur with [] => 0 | _ => 1 end) + ntok (match cur with [] => true | _ => false end) s.
Proof.
  revert cur. induction s as [|c s IH]; intros cur; simpl.
  - destruct cur; reflexivity.
  - destruct (is_space c).
    + destruct cur; simpl; rewrite IH; reflexivity.
    + rewrite IH. destruct cur; simpl; lia.
Qed.

Lemma split_length s : length (split s) = ntok true s.
Proof. unfold split. rewrite split_aux_length. reflexivity. Qed.

Lemma ntok_subseq s1 s2 :
  subseq s1 s2 -> forall b1 b2,
  ntok b1 s1 <= ntok b2 s2 + (if b1 && negb b2 then 1 else 0).
Proof.
  induction 1 as [|c s1 s2 _ IH|c s1 s2 _ IH]; intros b1 b2; simpl.
  - destruct b1, b2; simpl; lia.
  - destruct (is_space c).
    + specialize (IH b1 true). destruct b1, b2; simpl in *; lia.
    + specialize (IH b1 false). destruct b1, b2; simpl in *; lia.
  - destruct (is_space c).
    + specialize (IH true true). destruct b1, b2; simpl in *; lia.
    + specialize (IH false false). destruct b1, b2; simpl in *; lia.
Qed.

Lemma subseq_refl s : subseq s s.
Proof. induction s; constructor; assumption. Qed.

Lemma subseq_nil_l s : subseq [] s.
Proof. induction s; constructor; assumption. Qed.

Lemma subseq_app a b c d : subseq a b -> subseq c d -> subseq (a ++ c) (b ++ d).
Proof.
  induction 1 as [|x s1 s2 _ IH|x s1 s2 _ IH]; intros Hcd; simpl.
  - exact Hcd.
  - apply subseq_skip. apply IH. exact Hcd.
  - apply subseq_keep. apply IH. exact Hcd.
Qed.

Lemma subseq_rev a b : subseq a b -> subseq (rev a) (rev b).
Proof.
  induction 1; simpl.
  - constructor.
  - rewrite <- (app_nil_r (rev s1)). apply subseq_app; [assumption | constructor; constructor].
  - apply subseq_app; [assumption | apply subseq_refl].
Qed.

Lemma subseq_trans a b c : subseq a b -> subseq b c -> subseq a c.
Proof.
  intros Hab Hbc. revert a Hab. induction Hbc; intros a Hab.
  - exact Hab.
  - constructor. apply IHHbc. exact Hab.
  - inversion Hab; subst.
    + apply subseq_skip. apply IHHbc. assumption.
    + apply subseq_keep. apply IHHbc. assumption.
Qed.

Lemma drop_while_subseq p s : subseq (drop_while p s) s.
Proof.
  induction s as [|c s IH]; simpl; [constructor|].
  destruct (p c); [constructor; exact IH | apply subseq_refl].
Qed.

Lemma strip_subseq s : subseq (strip s) s.
Proof.
  unfold strip. rewrite <- (rev_involutive s) at 2.
  apply subseq_rev. apply (subseq_trans _ (rev (drop_while is_space s))).
  - apply drop_while_subseq.
  - apply subseq_rev. apply drop_while_subseq.
Qed.

Lemma remove_occ_subseq old k s : subseq (remove_occ old k s) s.
Proof.
  revert k. induction s as [|c s IH]; intros k; simpl; [constructor|].
  destruct k; [destruct (startswith (c :: s) old)|]; constructor; apply IH.
Qed.

Lemma replace_empty_subseq s old : subseq (replace_empty s old) s.
Proof.
  unfold replace_empty. destruct old; [apply subseq_refl | apply remove_occ_subseq].
Qed.

Lemma is_space_lower_char c : is_space (lower_char c) = is_space c.
Proof. destruct c as [[] [] [] [] [] [] [] []]; reflexivity. Qed.

Lemma ntok_lower b s : ntok b (lower s) = ntok b s.
Proof.
  revert b. induction s as [|c s IH]; intros b; [reflexivity|].
  cbn [lower map ntok]. fold (lower s). rewrite is_space_lower_char, !IH. reflexivity.
Qed.

Lemma residual_tokens text query :
  length (split (residual text query)) <= length (split text).
Proof.
  rewrite !split_length. unfold residual. rewrite <- (ntok_lower true text).
  pose proof (ntok_subseq _ _ (subseq_trans _ _ _ (strip_subseq _)
               (replace_empty_subseq (lower text) (rstrip_char "?"%char (lower query))))
               true true) as H.
  simpl in H. lia.
Qed.

(** A text of fewer than five whitespace-separated tokens is rejected
    whatever the query: removing the query and stripping never adds a
    token. *)
Theorem is_informative_short_text (text query : str) :
  length (split text) < 5 -> is_informative_content text query = false.
Proof.
  intros H. apply is_informative_short_residual.
  pose proof (residual_tokens text query). lia.
Qed.

Lemma is_informative_short_text_witness :
  is_informative_content (S_ "see you at four") (S_ "when") = false.
Proof. apply is_informative_short_text. vm_compute. lia. Defined.

(** With a query that is empty or made only of [?], any text containing
    a [?] is rejected: the normalised query is empty, every text starts
    with it. *)
Theorem is_informative_empty_query (text query : str) :
  rstrip_char "?"%char (lower query) = [] -> mem_char "?"%char text = true ->
  is_informative_content text query = false.
Proof.
  intros Hq Ht. unfold is_informative_content. cbv zeta. rewrite Hq, Ht.
  destruct (_ <? 5); reflexivity.
Qed.

Lemma is_informative_empty_query_witness :
  is_informative_content (S_ "it will rain all day long tomorrow, right?") (S_ "??") = false.
Proof. apply is_informative_empty_query; vm_compute; reflexivity. Defined.

(** ** Retrieval *)

Lemma filter_results_informative field query thr objs l :
  filter_results field query thr objs = Ok l ->
  forall d, In d l -> exists text, lookup field (properties d) = Some text /\
                                   is_informative_content text query = true.
Proof.
  revert l. induction objs as [|o objs IH]; intros l H d Hd; simpl in H.
  - injection H as <-. destruct Hd.
  - destruct (Qle_bool (distance o) thr); [|exact (IH l H d Hd)].
    destruct (lookup field (properties o)) as [text|] eqn:El; [|discriminate].
    destruct (is_informative_content text query) eqn:Ei; [|exact (IH l H d Hd)].
    destruct (filter_results field query thr objs) as [l'|] eqn:E; [|discriminate].
    injection H as <-. destruct Hd as [<- | Hd]; [eauto | exact (IH l' eq_refl d Hd)].
Qed.

(** Every message [retrieve_relevant_context] returns has the content
    property, and its content passes [is_informative_content] for the
    query. *)
Theorem retrieve_informative self query limit thr w l w' :
  retrieve_relevant_context self query limit thr w = (Ok l, w') ->
  forall d, In d l ->
    exists text, lookup (embedding_field self) (properties d) = Some text /\
                 is_informative_content text query = true.
Proof.
  intros H d Hd. destruct (retrieve_relevant_context_ok _ _ _ _ _ _ _ H)
    as [response [filtered [_ [Hf ->]]]].
  apply slice_to_incl in Hd. apply (Permutation_in _ (sort_by_distance_perm filtered)) in Hd.
  exact (filter_results_informative _ _ _ _ _ Hf d Hd).
Qed.

Lemma retrieve_informative_witness :
  lookup (S_ "content") (properties (rain_doc 0)) =
    Some (S_ "it rained heavily all night and flooded the street") /\
  is_informative_content (S_ "it rained heavily all night and flooded the street")
                         (S_ "is it raining") = true.
Proof.
  set (r := retrieve_relevant_context two_doc_system (S_ "is it raining") 7 (3 # 4)
              (mkWorld true [])).
  assert (E : r = (Ok [rain_doc 0; rain_doc (1 # 2)], snd r)) by (vm_compute; reflexivity).
  destruct (retrieve_informative _ _ _ _ _ _ _ E (rain_doc 0) (or_introl eq_refl))
    as [text [Hl Hi]].
  simpl in Hl. injection Hl as <-. split; [reflexivity | exact Hi].
Defined.

Lemma filter_results_err field query thr objs e :
  filter_results field query thr objs = Err e ->
  e = KeyError field /\
  exists d, In d objs /\ (distance d <= thr)%Q /\ lookup field (properties d) = None.
Proof.
  induction objs as [|o objs IH]; intros H; simpl in H; [discriminate|].
  destruct (Qle_bool (distance o) thr) eqn:Ht.
  - destruct (lookup field (properties o)) as [text|] eqn:El.
    + assert (Hr : filter_results field query thr objs = Err e).
      { destruct (is_informative_content text query); [|exact H].
        destruct (filter_results field query thr objs); [discriminate | exact H]. }
      destruct (IH Hr) as [-> [d [Hd Hdd]]]. split; [reflexivity|]. exists d.
      split; [right; exact Hd | exact Hdd].
    + injection H as <-. split; [reflexivity|]. exists o.
      split; [left; reflexivity | split; [apply Qle_bool_iff; exact Ht | exact El]].
  - destruct (IH H) as [-> [d [Hd Hdd]]]. split; [reflexivity|]. exists d.
    split; [right; exact Hd | exact Hdd].
Qed.

Lemma filter_results_ok field query thr objs :
  (forall d, In d objs -> (distance d <= thr)%Q -> lookup field (properties d) <> None) ->
  exists l, filter_results field query thr objs = Ok l.
Proof.
  induction objs as [|o objs IH]; intros H; simpl; [eauto|].
  destruct IH as [l Hl]; [intros d Hd; apply H; right; exact Hd|].
  destruct (Qle_bool (distance o) thr) eqn:Ht; [|rewrite Hl; eauto].
  destruct (lookup field (properties o)) as [text|] eqn:El.
  - rewrite Hl. destruct (is_informative_content text query); eauto.
  - exfalso. apply (H o (or_introl eq_refl)); [apply Qle_bool_iff; exact Ht | exact El].
Qed.

(** [retrieve_relevant_context] fails exactly in two ways: the vector
    search fails, or a candidate within the threshold lacks the content
    property ([KeyError]).  Candidates above the threshold are never
    looked into, and when every candidate within the threshold has the
    property the call succeeds. *)
Theorem retrieve_errors self query limit thr w :
  (forall e w', retrieve_relevant_context self query limit thr w = (Err e, w') ->
     near_vector (services self) (encode (services self) query) 100 = Err e \/
     exists response,
       near_vector (services self) (encode (services self) query) 100 = Ok response /\
       e = KeyError (embedding_field self) /\
       exists d, In d response /\ (distance d <= thr)%Q /\
                 lookup (embedding_field self) (properties d) = None) /\
  (forall response,
     near_vector (services self) (encode (services self) query) 100 = Ok response ->
     (forall d, In d response -> (distance d <= thr)%Q ->
                lookup (embedding_field self) (properties d) <> None) ->
     exists l, fst (retrieve_relevant_context self query limit thr w) = Ok l).
Proof.
  unfold retrieve_relevant_context, bind, call_near_vector, lift, ret. split.
  - intros e w'. destruct (near_vector _ _ _) as [response|e'] eqn:En.
    + destruct (filter_results _ _ _ _) as [filtered|e'] eqn:Ef; [discriminate|].
      intros H. injection H as <- _. right. exists response. split; [reflexivity|].
      exact (filter_results_err _ _ _ _ _ Ef).
    + intros H. injection H as <- _. left. reflexivity.
  - intros response Hn Hk. rewrite Hn.
    destruct (filter_results_ok (embedding_field self) query thr response Hk) as [l Hl].
    rewrite Hl. eexists. reflexivity.
Qed.

(** A candidate without content but beyond the threshold does not make
    the retrieval fail. *)
Lemma retrieve_errors_witness :
  exists l, fst (retrieve_relevant_context keyless_system (S_ "is it raining") 7 (3 # 4)
                   (mkWorld true [])) = Ok l.
Proof.
  apply (proj2 (retrieve_errors keyless_system (S_ "is it raining") 7 (3 # 4)
                  (mkWorld true [])) [mkDoc [] 2; rain_doc 0]).
  - reflexivity.
  - intros d [<- | [<- | []]]; simpl.
    + intros Hle. exfalso. vm_compute in Hle. apply Hle. reflexivity.
    + intros _. discriminate.
Defined.

(** For limits [0 <= n <= m], the result for [n] is the first [n]
    messages of the result for [m]. *)
Theorem retrieve_limit_prefix self query n m thr w l1 w1 l2 w2 :
  (0 <= n)%Z -> (n <= m)%Z ->
  retrieve_relevant_context self query n thr w = (Ok l1, w1) ->
  retrieve_relevant_context self query m thr w = (Ok l2, w2) ->
  l1 = firstn (Z.to_nat n) l2.
Proof.
  intros Hn Hnm H1 H2.
  destruct (retrieve_relevant_context_ok _ _ _ _ _ _ _ H1) as [r1 [f1 [Hr1 [Hf1 ->]]]].
  destruct (retrieve_relevant_context_ok _ _ _ _ _ _ _ H2) as [r2 [f2 [Hr2 [Hf2 ->]]]].
  rewrite Hr1 in Hr2. injection Hr2 as <-. rewrite Hf1 in Hf2. injection Hf2 as <-.
  unfold slice_to. replace (0 <=? n)%Z with true by (symmetry; apply Z.leb_le; lia).
  replace (0 <=? m)%Z with true by (symmetry; apply Z.leb_le; lia).
  rewrite firstn_firstn. f_equal. lia.
Qed.

Lemma retrieve_limit_prefix_witness :
  [rain_doc 0] = firstn 1 [rain_doc 0; rain_doc (1 # 2)].
Proof.
  set (r1 := retrieve_relevant_context two_doc_system (S_ "is it raining") 1 (3 # 4)
               (mkWorld true [])).
  set (r2 := retrieve_relevant_context two_doc_system (S_ "is it raining") 7 (3 # 4)
               (mkWorld true [])).
  assert (E1 : r1 = (Ok [rain_doc 0], snd r1)) by (vm_compute; reflexivity).
  assert (E2 : r2 = (Ok [rain_doc 0; rain_doc (1 # 2)], snd r2)) by (vm_compute; reflexivity).
  exact (retrieve_limit_prefix _ _ 1 7 _ _ _ _ _ _ ltac:(lia) ltac:(lia) E1 E2).
Defined.

(** ** The prompt builder *)

Lemma contents_missing field docs :
  (exists d, In d docs /\ lookup field (properties d) = None) ->
  contents field docs = Err (KeyError field).
Proof.
  induction docs as [|o docs IH]; intros [d [Hd Hl]]; [destruct Hd|]. simpl.
  destruct Hd as [-> | Hd]; [rewrite Hl; reflexivity|].
  destruct (lookup field (properties o)); [|reflexivity].
  rewrite IH; [reflexivity | exists d; split; assumption].
Qed.

(** [generate_prompt] raises [KeyError] when one message of the context
    lacks the content property. *)
Theorem generate_prompt_missing self query context :
  (exists d, In d context /\ lookup (embedding_field self) (properties d) = None) ->
  generate_prompt self query context = Err (KeyError (embedding_field self)).
Proof.
  intros [d [Hd Hl]]. unfold generate_prompt. rewrite contents_missing; [reflexivity|].
  exists d. split; [|exact Hl].
  apply (Permutation_in _ (Permutation_sym (sort_by_distance_perm context))). exact Hd.
Qed.

Lemma generate_prompt_missing_witness :
  generate_prompt two_doc_system (S_ "is it raining") [rain_doc 0; mkDoc [] 1]
  = Err (KeyError (S_ "content")).
Proof.
  apply generate_prompt_missing. exists (mkDoc [] 1). split; [right; left; reflexivity | reflexivity].
Defined.

Lemma sorted_perm_unique l1 l2 :
  Sorted dist_le l1 -> Sorted dist_le l2 -> Permutation l1 l2 ->
  (forall a b, In a l1 -> In b l1 -> (distance a == distance b)%Q -> a = b) ->
  l1 = l2.
Proof.
  assert (Htr : forall a b c, dist_le a b -> dist_le b c -> dist_le a c)
    by (unfold dist_le; intros a b c; apply Qle_trans).
  revert l2. induction l1 as [|x r1 IH]; intros l2 H1 H2 Hp Hd.
  - apply Permutation_nil in Hp. symmetry. exact Hp.
  - destruct l2 as [|y r2]; [apply Permutation_sym, Permutation_nil_cons in Hp; destruct Hp|].
    pose proof (Sorted_StronglySorted Htr H1) as S1.
    pose proof (Sorted_StronglySorted Htr H2) as S2.
    inversion S1 as [|? ? _ F1]; inversion S2 as [|? ? _ F2]; subst.
    assert (Hyx : dist_le y x).
    { destruct (Permutation_in x Hp (or_introl eq_refl)) as [-> | Hx];
        [apply Qle_refl | rewrite Forall_forall in F2; apply F2; exact Hx]. }
    assert (Hxy : dist_le x y).
    { destruct (Permutation_in y (Permutation_sym Hp) (or_introl eq_refl)) as [-> | Hy];
        [apply Qle_refl | rewrite Forall_forall in F1; apply F1; exact Hy]. }
    assert (Hy : In y (x :: r1)) by exact (Permutation_in y (Permutation_sym Hp) (or_introl eq_refl)).
    assert (E : x = y) by (apply Hd; [left; reflexivity | exact Hy | apply Qle_antisym; assumption]).
    subst y. f_equal. apply IH.
    + inversion H1; assumption.
    + inversion H2; assumption.
    + apply Permutation_cons_inv in Hp. exact Hp.
    + intros a b Ha Hb. apply Hd; right; assumption.
Qed.

(** When the distances of the context are pairwise distinct, the prompt
    does not depend on the order in which the messages are passed. *)
Theorem generate_prompt_order_independent self query c1 c2 :
  Permutation c1 c2 ->
  (forall a b, In a c1 -> In b c1 -> (distance a == distance b)%Q -> a = b) ->
  generate_prompt self query c1 = generate_prompt self query c2.
Proof.
  intros Hp Hd. unfold generate_prompt.
  replace (sort_by_distance c2) with (sort_by_distance c1); [reflexivity|].
  pose proof (sort_by_distance_perm c1) as P1. pose proof (sort_by_distance_perm c2) as P2.
  apply sorted_perm_unique.
  - apply sort_by_distance_sorted.
  - apply sort_by_distance_sorted.
  - rewrite P1, P2. exact Hp.
  - intros a b Ha Hb. apply Hd; apply (Permutation_in _ P1); assumption.
Qed.

Lemma generate_prompt_order_independent_witness :
  generate_prompt two_doc_system (S_ "is it raining") [rain_doc (1 # 2); rain_doc 0] =
  generate_prompt two_doc_system (S_ "is it raining") [rain_doc 0; rain_doc (1 # 2)].
Proof.
  apply generate_prompt_order_independent; [apply perm_swap|].
  intros a b [<- | [<- | []]] [<- | [<- | []]]; simpl; intros He;
    try reflexivity; vm_compute in He; discriminate He.
Defined.

(** ** The pipeline *)

(** When retrieval returns messages and the prompt is built, [query]
    prints the prompt, calls the completion service once with it,
    returns the service's result unchanged and closes the client. *)
Theorem query_answer_path self user_query w d docs w1 prompt :
  retrieve_relevant_context self user_query 7 (3 # 4) w = (Ok (d :: docs), w1) ->
  generate_prompt self user_query (d :: docs) = Ok prompt ->
  query self user_query w =
    (complete (services self) prompt,
     close_world (emit (EvComplete prompt) (emit (EvPrint (S_ "Prompt " ++ prompt)) w1))).
Proof.
  intros Hr Hp.
  unfold query, try_finally, query_body, client_close, bind, lift, print, get_completion.
  rewrite Hr, Hp. reflexivity.
Qed.

Lemma query_answer_path_witness :
  fst (query two_doc_system (S_ "is it raining") (mkWorld true [])) = Ok [].
Proof.
  set (r := retrieve_relevant_context two_doc_system (S_ "is it raining") 7 (3 # 4)
              (mkWorld true [])).
  assert (E : r = (Ok [rain_doc 0; rain_doc (1 # 2)], snd r)) by (vm_compute; reflexivity).
  set (g := generate_prompt two_doc_system (S_ "is it raining") [rain_doc 0; rain_doc (1 # 2)]).
  set (p := match g with Ok p => p | Err _ => [] end).
  assert (Ep : g = Ok p) by (vm_compute; reflexivity).
  rewrite (query_answer_path _ _ _ _ _ _ _ E Ep). reflexivity.
Defined.

Lemma retrieve_prompt_ok self query limit thr w l w1 :
  retrieve_relevant_context self query limit thr w = (Ok l, w1) ->
  exists p, generate_prompt self query l = Ok p.
Proof.
  intros H. destruct (retrieve_relevant_context_ok _ _ _ _ _ _ _ H)
    as [response [filtered [_ [Hf ->]]]].
  unfold generate_prompt.
  destruct (contents_ok (embedding_field self)
              (sort_by_distance (slice_to limit (sort_by_distance filtered))))
    as [cs [Hcs _]].
  - intros d Hd.
    apply (Permutation_in _ (sort_by_distance_perm _)) in Hd.
    apply slice_to_incl in Hd. apply (Permutation_in _ (sort_by_distance_perm filtered)) in Hd.
    destruct (filter_results_informative _ _ _ _ _ Hf d Hd) as [text [Ht _]]. eauto.
  - rewrite Hcs. eexists. reflexivity.
Qed.

(** A failure of retrieval is returned by [query] unchanged; the
    completion service is not called and the client is closed.  Prompt
    building never fails on what retrieval returns, so every error
    [query] returns comes from the vector search (or a message lacking
    the content property, reported by retrieval) or from the completion
    service. *)
Theorem query_failure_paths self user_query w :
  (forall e w1,
   retrieve_relevant_context self user_query 7 (3 # 4) w = (Err e, w1) ->
   query self user_query w = (Err e, close_world w1) /\
   events (close_world w1) =
     events w ++ [EvNearVector (encode (services self) user_query) 100; EvClose]) /\
  (forall e, fst (query self user_query w) = Err e ->
   (exists w1, retrieve_relevant_context self user_query 7 (3 # 4) w = (Err e, w1)) \/
   (exists p, complete (services self) p = Err e)).
Proof.
  split.
  - intros e w1 H. split.
    + unfold query, try_finally, query_body, client_close, bind at 1. rewrite H. reflexivity.
    + pose proof (retrieve_world self user_query 7 (3 # 4) w) as Hw.
      rewrite H in Hw. simpl in Hw. rewrite Hw. simpl. rewrite <- app_assoc. reflexivity.
  - intros e.
    destruct (retrieve_relevant_context self user_query 7 (3 # 4) w) as [[l|e'] w1] eqn:H.
    + destruct l as [|d docs].
      * unfold query, try_finally, query_body, client_close, bind at 1. rewrite H.
        discriminate.
      * destruct (retrieve_prompt_ok _ _ _ _ _ _ _ H) as [p Hp].
        unfold query, try_finally, query_body, client_close, bind, lift, print,
          get_completion.
        rewrite H, Hp. simpl. intros He. right. exists p. exact He.
    + unfold query, try_finally, query_body, client_close, bind at 1. rewrite H.
      simpl. intros He. injection He as ->. left. exists w1. reflexivity.
Qed.

Lemma query_failure_paths_witness :
  fst (query failing_store_system (S_ "is it raining") (mkWorld true [])) = Err StoreFailure /\
  ((exists w1, retrieve_relevant_context failing_store_system (S_ "is it raining") 7 (3 # 4)
                 (mkWorld true []) = (Err StoreFailure, w1)) \/
   (exists p, complete (services failing_store_system) p = Err StoreFailure)) /\
  ((exists w1, retrieve_relevant_context failing_completion_system (S_ "is it raining") 7
                 (3 # 4) (mkWorld true []) = (Err CompletionFailure, w1)) \/
   (exists p, complete (services failing_completion_system) p = Err CompletionFailure)).
Proof.
  set (r := retrieve_relevant_context failing_store_system (S_ "is it raining") 7 (3 # 4)
              (mkWorld true [])).
  assert (E : r = (Err StoreFailure, snd r)) by (vm_compute; reflexivity).
  assert (Hq : fst (query failing_store_system (S_ "is it raining") (mkWorld true []))
               = Err StoreFailure)
    by (rewrite (proj1 (proj1 (query_failure_paths _ _ _) _ _ E)); reflexivity).
  split; [exact Hq|]. split.
  - exact (proj2 (query_failure_paths _ _ _) _ Hq).
  - apply (proj2 (query_failure_paths _ _ _)). vm_compute. reflexivity.
Defined.

(** ** The message parser *)

Lemma in_range_bounds lo hi a :
  in_range lo hi a = true -> lo <= nat_of_ascii a <= hi.
Proof. unfold in_range. rewrite andb_true_iff, !Nat.leb_le. tauto. Qed.

Lemma in_alt1 p s v r : In (v, r) (alt1 p s) -> exists a, p a = true /\ v = dval a.
Proof.
  destruct s as [|a s]; simpl; [tauto|]. destruct (p a) eqn:E; simpl; [|tauto].
  intros [H | []]. injection H as <- _. eauto.
Qed.

Lemma in_alt2 p q s v r :
  In (v, r) (alt2 p q s) -> exists a b, p a = true /\ q b = true /\ v = 10 * dval a + dval b.
Proof.
  destruct s as [|a [|b s]]; simpl; try tauto.
  destruct (p a && q b) eqn:E; simpl; [|tauto]. apply andb_true_iff in E as [Ea Eb].
  intros [H | []]. injection H as <- _. eauto.
Qed.

Ltac alt_bounds :=
  repeat match goal with
  | H : In _ (_ ++ _) |- _ => apply in_app_or in H; destruct H as [H | H]
  | H : In _ (alt1 _ _) |- _ =>
      apply in_alt1 in H; destruct H as [?a [?Ha ->]]
  | H : In _ (alt2 _ _ _) |- _ =>
      apply in_alt2 in H; destruct H as [?a [?b [?Ha [?Hb ->]]]]
  | H : in_range _ _ _ = true |- _ => apply in_range_bounds in H
  end; unfold dval; lia.

Lemma alt_m_bounds s v r : In (v, r) (alt_m s) -> 1 <= v <= 12.
Proof. unfold alt_m. intros H. alt_bounds. Qed.

Lemma alt_d_bounds s v r : In (v, r) (alt_d s) -> 1 <= v <= 31.
Proof.
  unfold alt_d, dig. intros H. apply in_app_or in H as [H | H]; [alt_bounds|].
  apply in_app_or in H as [H | H]; [alt_bounds|].
  apply in_app_or in H as [H | H]; [alt_bounds|].
  apply in_app_or in H as [H | H]; [alt_bounds|].
  destruct s as [|c s]; [destruct H|].
  destruct (Ascii.eqb c " "%char); [alt_bounds | destruct H].
Qed.

Lemma alt_y_bounds s v r : In (v, r) (alt_y s) -> v <= 99.
Proof. unfold alt_y, dig. intros H. alt_bounds. Qed.

Lemma alt_H_bounds s v r : In (v, r) (alt_H s) -> v <= 23.
Proof. unfold alt_H, dig. intros H. alt_bounds. Qed.

Lemma alt_M_bounds s v r : In (v, r) (alt_M s) -> v <= 59.
Proof. unfold alt_M, dig. intros H. alt_bounds. Qed.

Lemma strptime_candidates_bounds s mo dd yy hh mi r :
  In (mo, dd, yy, hh, mi, r) (strptime_candidates s) ->
  1 <= mo <= 12 /\ 1 <= dd <= 31 /\ yy <= 99 /\ hh <= 23 /\ mi <= 59.
Proof.
  unfold strptime_candidates. intros H.
  apply in_flat_map in H as [[mo' r1] [Hm H]].
  apply in_flat_map in H as [r2 [_ H]].
  apply in_flat_map in H as [[dd' r3] [Hd H]].
  apply in_flat_map in H as [r4 [_ H]].
  apply in_flat_map in H as [[yy' r5] [Hy H]].
  apply in_flat_map in H as [r6 [_ H]].
  apply in_flat_map in H as [[hh' r7] [Hh H]].
  apply in_flat_map in H as [r8 [_ H]].
  apply in_map_iff in H as [[mi' r9] [He Hmi]].
  injection He as <- <- <- <- <- <-.
  apply alt_m_bounds in Hm. apply alt_d_bounds in Hd. apply alt_y_bounds in Hy.
  apply alt_H_bounds in Hh. apply alt_M_bounds in Hmi. lia.
Qed.

Lemma strptime_valid s t : strptime s = Some t -> valid_datetime t.
Proof.
  unfold strptime. destruct (strptime_candidates s) as [|[[[[[mo dd] yy] hh] mi] r] cs] eqn:E;
    [discriminate|].
  destruct r; [|discriminate].
  assert (Hin : In (mo, dd, yy, hh, mi, []) (strptime_candidates s)) by (rewrite E; left; reflexivity).
  apply strptime_candidates_bounds in Hin.
  assert (Hy : 1969 <= (if yy <=? 68 then 2000 + yy else 1900 + yy) <= 2068)
    by (destruct (Nat.leb_spec yy 68); lia).
  revert Hy. generalize (if yy <=? 68 then 2000 + yy else 1900 + yy) as year. intros year Hy.
  destruct (dd <=? days_in_month year mo) eqn:Hd; [|discriminate].
  intros Ht. injection Ht as <-. apply Nat.leb_le in Hd.
  unfold valid_datetime; cbn [dt_year dt_month dt_day dt_hour dt_minute]; lia.
Qed.

Lemma hd_drop_while p s c : hd_error (drop_while p s) = Some c -> p c = false.
Proof.
  induction s as [|a s IH]; simpl; [discriminate|].
  destruct (p a) eqn:E; [exact IH|]. simpl. intros H. injection H as <-. exact E.
Qed.

Lemma strip_first s c : hd_error (strip s) = Some c -> is_space c = false.
Proof.
  unfold strip. set (Y := drop_while is_space s).
  destruct (drop_while_suffix is_space (rev Y)) as [pre Hpre].
  set (X := drop_while is_space (rev Y)) in *.
  intros H. apply (hd_drop_while is_space s). fold Y.
  assert (HY : Y = rev X ++ rev pre) by (rewrite <- rev_app_distr, <- Hpre, rev_involutive; reflexivity).
  rewrite HY. destruct (rev X); [discriminate | exact H].
Qed.

Lemma strip_last s c : hd_error (rev (strip s)) = Some c -> is_space c = false.
Proof. unfold strip. rewrite rev_involutive. apply hd_drop_while. Qed.

Lemma forallb_subseq p s1 s2 : subseq s1 s2 -> forallb p s2 = true -> forallb p s1 = true.
Proof.
  induction 1 as [| c s1 s2 _ IH | c s1 s2 _ IH]; simpl; auto;
    rewrite ?andb_true_iff; intros; intuition.
Qed.

Lemma strip_trimmed s : trimmed (strip s).
Proof. split; [apply strip_first | apply strip_last]. Qed.

(** The record [parse_message] returns: a timestamp that is the ISO form
    of a valid date and time (year 1969..2068, a day that exists in its
    month), a trimmed sender without [:], a trimmed one-line content,
    and the embedding of the content group of the match itself, before
    trimming.  The groups of a matching line are unique. *)
Theorem parse_message_fields self line r :
  parse_message self line = Some r ->
  (exists t, valid_datetime t /\ timestamp r = isoformat t) /\
  forallb not_colon (sender r) = true /\ trimmed (sender r) /\
  forallb not_newline (content r) = true /\ trimmed (content r) /\
  exists date time snd' cnt,
    line_matches line date time snd' cnt /\
    (forall date' time' snd'' cnt', line_matches line date' time' snd'' cnt' ->
       date' = date /\ time' = time /\ snd'' = snd' /\ cnt' = cnt) /\
    sender r = strip snd' /\ content r = strip cnt /\ embedding r = model_encode self cnt.
Proof.
  unfold parse_message.
  destruct (match_line line) as [[[[date time] snd'] cnt]|] eqn:E; [|discriminate].
  destruct (strptime (date ++ " "%char :: time)) as [ts|] eqn:Ets; [|discriminate].
  intros H. injection H as <-. cbn [timestamp sender content embedding].
  pose proof (match_line_sound _ _ _ _ _ E) as Hm.
  destruct Hm as (m & d & y & h & mi & w1 & w2 & w3 & w4 & rest & _ & _ & _ & _ & _
                  & _ & _ & _ & Hs & _ & Hc & _).
  split; [exists ts; split; [exact (strptime_valid _ _ Ets) | reflexivity]|].
  split; [exact (forallb_subseq _ _ _ (strip_subseq snd') Hs)|].
  split; [apply strip_trimmed|].
  split; [exact (forallb_subseq _ _ _ (strip_subseq cnt) Hc)|].
  split; [apply strip_trimmed|].
  exists date, time, snd', cnt.
  split; [exact (match_line_sound _ _ _ _ _ E)|].
  split; [|repeat split].
  intros date' time' snd'' cnt' Hm'. apply match_line_complete in Hm'.
  rewrite E in Hm'. injection Hm' as -> -> -> ->. repeat split.
Qed.

Lemma parse_message_fields_witness :
  let self := mkIndexer (fun c => [inject_Z (Z.of_nat (length c))]) in
  let r := mkParsed (S_ "2024-03-05T14:07:00") (S_ "Alice") (S_ "hello there")
                    [inject_Z 12] in
  parse_message self sample_line = Some r /\
  ((exists t, valid_datetime t /\ timestamp r = isoformat t) /\
   forallb not_colon (sender r) = true /\ trimmed (sender r) /\
   forallb not_newline (content r) = true /\ trimmed (content r) /\
   exists date time snd' cnt,
     line_matches sample_line date time snd' cnt /\
     (forall date' time' snd'' cnt', line_matches sample_line date' time' snd'' cnt' ->
        date' = date /\ time' = time /\ snd'' = snd' /\ cnt' = cnt) /\
     sender r = strip snd' /\ content r = strip cnt /\ embedding r = model_encode self cnt).
Proof.
  intros self r.
  assert (H : parse_message self sample_line = Some r) by (vm_compute; reflexivity).
  split; [exact H | exact (parse_message_fields self sample_line r H)].
Defined.

(** ** The indexing loop *)

Lemma inserted_app l1 l2 : inserted (l1 ++ l2) = inserted l1 ++ inserted l2.
Proof. induction l1 as [|[] l1 IH]; simpl; try rewrite IH; reflexivity. Qed.

Lemma index_line_step self insert st raw :
  objects_to_insert st = [] ->
  exists st' L,
    index_line self insert st raw = inl st' /\ objects_to_insert st' = [] /\
    total_processed st' = total_processed st + length (kept_messages self [raw]) /\
    index_log st' = index_log st ++ L /\
    inserted L = kept_messages self [raw] /\ forallb one_insert_ok L = true.
Proof.
  destruct st as [objs n log]. cbn [objects_to_insert]. intros ->.
  unfold index_line, kept_messages. cbn [objects_to_insert total_processed index_log].
  destruct ((match strip raw with [] => true | _ => false end
             || contains (strip raw) encrypted_notice)).
  - exists (mkIndexState [] n log), []. rewrite app_nil_r. repeat split; simpl; lia.
  - destruct (parse_message self (strip raw)) as [p|]; cbn [length app Nat.leb].
    + set (proc := if S n mod 100 =? 0 then [EvProcessed (S n)] else []).
      set (outcome := match insert p with
                      | Ok _ => [EvInsertedBatch 1 (S n)]
                      | Err _ => [EvInsertError] end).
      exists (mkIndexState [] (S n) ((log ++ proc) ++ EvInsert p :: outcome)),
             (proc ++ EvInsert p :: outcome).
      repeat split; cbn [objects_to_insert total_processed index_log length].
      * lia.
      * symmetry. apply app_assoc.
      * rewrite inserted_app. subst proc outcome.
        destruct (S n mod 100 =? 0); destruct (insert p); reflexivity.
      * rewrite forallb_app. subst proc outcome.
        destruct (S n mod 100 =? 0); destruct (insert p); reflexivity.
    + exists (mkIndexState [] n log), []. rewrite app_nil_r. repeat split; simpl; lia.
Qed.

Lemma kept_messages_cons self raw rest :
  kept_messages self (raw :: rest) = kept_messages self [raw] ++ kept_messages self rest.
Proof.
  simpl. destruct (_ || _); [reflexivity|].
  destruct (parse_message self (strip raw)); reflexivity.
Qed.

Lemma index_lines_run self insert lines :
  forall st, objects_to_insert st = [] ->
  exists st' L,
    index_lines self insert st lines = inl st' /\ objects_to_insert st' = [] /\
    total_processed st' = total_processed st + length (kept_messages self lines) /\
    index_log st' = index_log st ++ L /\
    inserted L = kept_messages self lines /\ forallb one_insert_ok L = true.
Proof.
  induction lines as [|raw rest IH]; intros st Hst.
  - exists st, []. rewrite app_nil_r, Nat.add_0_r. repeat split; assumption.
  - destruct (index_line_step self insert st raw Hst)
      as (st1 & L1 & Hstep & Ho1 & Ht1 & Hl1 & Hi1 & Hf1).
    destruct (IH st1 Ho1) as (st2 & L2 & Hrun & Ho2 & Ht2 & Hl2 & Hi2 & Hf2).
    exists st2, (L1 ++ L2). simpl index_lines. rewrite Hstep.
    rewrite kept_messages_cons, length_app.
    repeat split.
    + exact Hrun.
    + exact Ho2.
    + rewrite Ht2, Ht1. lia.
    + rewrite Hl2, Hl1, app_assoc. reflexivity.
    + rewrite inserted_app, Hi1, Hi2. reflexivity.
    + rewrite forallb_app, Hf1, Hf2. reflexivity.
Qed.

(** [index_chat] never fails on [parsed["content"]] and never calls
    [insert_many]: the list of pending objects is emptied after every
    message, so the final batch is always empty.  Every message kept
    (non-blank after [strip], without the encryption notice, parsed by
    [parse_message]) is passed to [insert] once, in file order, also
    after an insertion error; [total_processed] counts them, and every
    "Inserted batch" message reports a batch of one. *)
Theorem index_chat_inserts_each self insert insert_many lines :
  exists st,
    index_chat self insert insert_many lines = inl st /\
    objects_to_insert st = [] /\
    total_processed st = length (kept_messages self lines) /\
    inserted (index_log st) = kept_messages self lines /\
    forallb (fun e => negb (is_insert_many e)) (index_log st) = true /\
    (forall b t, In (EvInsertedBatch b t) (index_log st) -> b = 1).
Proof.
  destruct (index_lines_run self insert lines (mkIndexState [] 0 []) eq_refl)
    as (st & L & Hrun & Ho & Ht & Hl & Hi & Hf).
  cbn [index_log total_processed app] in Ht, Hl.
  exists st. unfold index_chat. rewrite Hrun, Ho.
  repeat split.
  - exact Ht.
  - rewrite Hl. exact Hi.
  - rewrite Hl. clear - Hf. induction L as [|e L IH]; [reflexivity|].
    simpl in Hf |- *. apply andb_true_iff in Hf as [He Hf].
    destruct e; try discriminate; simpl; apply IH; exact Hf.
  - intros b t Hin. rewrite Hl in Hin. apply forallb_forall with (x := EvInsertedBatch b t) in Hf;
      [apply Nat.eqb_eq; exact Hf | exact Hin].
Qed.

(** ** ISO timestamps *)

Lemma digit_char_inj x y : x < 10 -> y < 10 -> digit_char x = digit_char y -> x = y.
Proof.
  intros Hx Hy H. apply (f_equal nat_of_ascii) in H. unfold digit_char in H.
  rewrite !nat_ascii_embedding in H by lia. lia.
Qed.

Ltac divmod_facts a k :=
  pose proof (Nat.div_mod_eq a k); pose proof (Nat.mod_upper_bound a k ltac:(lia)).

Lemma pad2_inj a b : a < 100 -> b < 100 -> pad2 a = pad2 b -> a = b.
Proof.
  unfold pad2. intros Ha Hb H.
  divmod_facts a 10. divmod_facts b 10.
  assert (a / 10 < 10 /\ b / 10 < 10) as [Q1 Q2] by lia.
  assert (a mod 10 < 10 /\ b mod 10 < 10) as [R1 R2] by lia.
  rewrite (Nat.div_mod_eq a 10), (Nat.div_mod_eq b 10).
  revert H Q1 Q2 R1 R2.
  generalize (a / 10), (b / 10), (a mod 10), (b mod 10). intros qa qb ra rb H Q1 Q2 R1 R2.
  injection H as E1 E2.
  apply digit_char_inj in E1; [|assumption ..]. apply digit_char_inj in E2; [|assumption ..].
  lia.
Qed.

Lemma pad4_digits a :
  a < 100 * 100 ->
  (a = 1000 * (a / 1000) + 100 * (a / 100 mod 10) + 10 * (a / 10 mod 10) + a mod 10) /\
  a / 1000 < 10 /\ a / 100 mod 10 < 10 /\ a / 10 mod 10 < 10 /\ a mod 10 < 10.
Proof.
  intros Ha. divmod_facts a 1000. divmod_facts a 100. divmod_facts a 10.
  divmod_facts (a / 100) 10. divmod_facts (a / 10) 10. lia.
Qed.

Lemma pad4_inj a b : a < 100 * 100 -> b < 100 * 100 -> pad4 a = pad4 b -> a = b.
Proof.
  unfold pad4. intros Ha Hb H.
  destruct (pad4_digits a Ha) as (Ea & A1 & A2 & A3 & A4).
  destruct (pad4_digits b Hb) as (Eb & B1 & B2 & B3 & B4).
  rewrite Ea, Eb. clear Ea Eb. revert H A1 B1 A2 B2 A3 B3 A4 B4.
  generalize (a / 1000), (b / 1000), (a / 100 mod 10), (b / 100 mod 10),
    (a / 10 mod 10), (b / 10 mod 10), (a mod 10), (b mod 10).
  intros a1 b1 a2 b2 a3 b3 a4 b4 H A1 B1 A2 B2 A3 B3 A4 B4.
  injection H as E1 E2 E3 E4.
  apply digit_char_inj in E1, E2, E3, E4; try assumption. lia.
Qed.

Lemma app_same_length {A} (a b c d : list A) :
  length a = length c -> a ++ b = c ++ d -> a = c /\ b = d.
Proof.
  revert c. induction a as [|x a IH]; intros [|y c] Hl H; try discriminate; [auto|].
  injection H as -> H. injection Hl as Hl. destruct (IH c Hl H) as [-> ->]. auto.
Qed.

(** On valid dates and times, [isoformat] is one-to-one: the timestamp
    string stored for a message determines the parsed date and time. *)
Theorem isoformat_injective t1 t2 :
  valid_datetime t1 -> valid_datetime t2 -> isoformat t1 = isoformat t2 -> t1 = t2.
Proof.
  destruct t1 as [y1 mo1 d1 h1 mi1], t2 as [y2 mo2 d2 h2 mi2].
  unfold valid_datetime, isoformat; cbn [dt_year dt_month dt_day dt_hour dt_minute].
  intros (Y1 & M1 & D1 & H1 & I1) (Y2 & M2 & D2 & H2 & I2) E.
  assert (Dm : forall y m, days_in_month y m <= 31)
    by (intros y m; unfold days_in_month; repeat (destruct m as [|m]; try lia);
        destruct (is_leap y); lia).
  specialize (Dm y1 mo1) as Dm1. specialize (Dm y2 mo2) as Dm2.
  apply app_same_length in E as [Ey E]; [|reflexivity].
  apply (f_equal (@tl ascii)) in E; cbn [tl] in E. apply app_same_length in E as [Emo E]; [|reflexivity].
  apply (f_equal (@tl ascii)) in E; cbn [tl] in E. apply app_same_length in E as [Ed E]; [|reflexivity].
  apply (f_equal (@tl ascii)) in E; cbn [tl] in E. apply app_same_length in E as [Eh E]; [|reflexivity].
  apply (f_equal (@tl ascii)) in E; cbn [tl] in E. apply app_same_length in E as [Emi _]; [|reflexivity].
  apply pad4_inj in Ey; [|lia ..]. apply pad2_inj in Emo; [|lia ..].
  apply pad2_inj in Ed; [|lia ..]. apply pad2_inj in Eh; [|lia ..].
  apply pad2_inj in Emi; [|lia ..]. subst. reflexivity.
Qed.

Lemma isoformat_injective_witness :
  valid_datetime (mkDatetime 2024 3 5 14 7) /\ valid_datetime (mkDatetime 2024 3 5 14 7) /\
  isoformat (mkDatetime 2024 3 5 14 7) = isoformat (mkDatetime 2024 3 5 14 7) /\
  mkDatetime 2024 3 5 14 7 = mkDatetime 2024 3 5 14 7.
Proof.
  assert (V : valid_datetime (mkDatetime 2024 3 5 14 7))
    by (unfold valid_datetime; cbn [dt_year dt_month dt_day dt_hour dt_minute];
        vm_compute; lia).
  split; [exact V | split; [exact V | split; [reflexivity |]]].
  exact (isoformat_injective _ _ V V eq_refl).
Defined.

(** ** Code points *)

Lemma ascii_eqb_nat c d : Ascii.eqb c d = Nat.eqb (nat_of_ascii c) (nat_of_ascii d).
Proof.
  destruct (Ascii.eqb_spec c d) as [-> | Hne]; [symmetry; apply Nat.eqb_refl|].
  symmetry. apply Nat.eqb_neq. intros He. apply Hne.
  rewrite <- (ascii_nat_embedding c), He. apply ascii_nat_embedding.
Qed.

Lemma u_startswith s p :
  Unicode.startswith (Unicode.of_str s) (Unicode.of_str p) = startswith s p.
Proof.
  revert s. induction p as [|c p IH]; intros [|d s]; try reflexivity.
  simpl. rewrite ascii_eqb_nat, <- IH. reflexivity.
Qed.

Lemma u_contains s sub :
  Unicode.contains (Unicode.of_str s) (Unicode.of_str sub) = contains s sub.
Proof.
  induction s as [|c s IH].
  - change (Unicode.contains (Unicode.of_str []) (Unicode.of_str sub)) with
      (Unicode.startswith (Unicode.of_str []) (Unicode.of_str sub) || false).
    rewrite u_startswith. reflexivity.
  - change (Unicode.of_str (c :: s)) with (nat_of_ascii c :: Unicode.of_str s).
    simpl. rewrite <- IH. f_equal. exact (u_startswith (c :: s) sub).
Qed.

Lemma u_drop_while p q s :
  (forall c, q (nat_of_ascii c) = p c) ->
  Unicode.drop_while q (Unicode.of_str s) = Unicode.of_str (drop_while p s).
Proof.
  intros Hpq. induction s as [|c s IH]; [reflexivity|].
  simpl. rewrite Hpq. destruct (p c); [exact IH | reflexivity].
Qed.

Lemma u_rev s : Unicode.of_str (rev s) = rev (Unicode.of_str s).
Proof. apply map_rev. Qed.

Lemma u_strip s : Unicode.strip (Unicode.of_str s) = Unicode.of_str (strip s).
Proof.
  unfold Unicode.strip, strip.
  rewrite (u_drop_while is_space) by reflexivity.
  rewrite <- u_rev, (u_drop_while is_space) by reflexivity. symmetry. apply u_rev.
Qed.

Lemma u_rstrip_char c s :
  Unicode.rstrip_char (nat_of_ascii c) (Unicode.of_str s) = Unicode.of_str (rstrip_char c s).
Proof.
  unfold Unicode.rstrip_char, rstrip_char.
  rewrite <- u_rev, (u_drop_while (Ascii.eqb c)) by (intros d; rewrite ascii_eqb_nat; reflexivity).
  symmetry. apply u_rev.
Qed.

Lemma u_split_aux cur s :
  Unicode.split_aux (Unicode.of_str cur) (Unicode.of_str s) = map Unicode.of_str (split_aux cur s).
Proof.
  revert cur. induction s as [|c s IH]; intros cur.
  - destruct cur as [|d cur]; [reflexivity|]. simpl.
    unfold Unicode.of_str. rewrite map_app, map_rev. reflexivity.
  - simpl. change (Unicode.is_space (nat_of_ascii c)) with (is_space c).
    destruct (is_space c).
    + destruct cur as [|d cur]; [exact (IH [])|].
      simpl. rewrite <- (IH []). f_equal.
      unfold Unicode.of_str. rewrite map_app, map_rev. reflexivity.
    + exact (IH (c :: cur)).
Qed.

Lemma u_split s : Unicode.split (Unicode.of_str s) = map Unicode.of_str (split s).
Proof. exact (u_split_aux [] s). Qed.

Lemma u_remove_occ old k s :
  Unicode.remove_occ (Unicode.of_str old) k (Unicode.of_str s) =
  Unicode.of_str (remove_occ old k s).
Proof.
  revert k. induction s as [|c s IH]; intros k; [reflexivity|].
  change (Unicode.of_str (c :: s)) with (nat_of_ascii c :: Unicode.of_str s).
  simpl. destruct k as [|k]; [|exact (IH k)].
  change (nat_of_ascii c :: Unicode.of_str s) with (Unicode.of_str (c :: s)).
  rewrite u_startswith. unfold Unicode.of_str at 2. rewrite length_map.
  destruct (startswith (c :: s) old); [apply IH|]. simpl. f_equal. apply IH.
Qed.

Lemma u_replace_empty s old :
  Unicode.replace_empty (Unicode.of_str s) (Unicode.of_str old) =
  Unicode.of_str (replace_empty s old).
Proof. destruct old as [|c old]; [reflexivity|]. apply u_remove_occ. Qed.

Lemma u_lower_char c :
  nat_of_ascii c < 128 -> nat_of_ascii (lower_char c) = Unicode.to_lower_full (nat_of_ascii c).
Proof.
  intros Hc. unfold lower_char, Unicode.to_lower_full, Unicode.is_ascii_upper,
    Unicode.is_greek_upper. cbv zeta.
  assert (G : (913 <=? nat_of_ascii c) = false) by (apply Nat.leb_gt; lia).
  rewrite G, andb_false_l, orb_false_r.
  destruct ((65 <=? nat_of_ascii c) && (nat_of_ascii c <=? 90)) eqn:E; [|reflexivity].
  apply andb_true_iff in E as [_ E]. apply Nat.leb_le in E.
  apply nat_ascii_embedding. lia.
Qed.

Lemma u_lower_aux before s :
  ascii7 s = true ->
  Unicode.lower_aux before (Unicode.of_str s) = Unicode.of_str (lower s).
Proof.
  revert before. induction s as [|c s IH]; intros before Hs; [reflexivity|].
  simpl in Hs. apply andb_true_iff in Hs as [Hc Hs]. apply Nat.ltb_lt in Hc.
  simpl. replace (nat_of_ascii c =? Unicode.capital_sigma) with false
    by (symmetry; apply Nat.eqb_neq; unfold Unicode.capital_sigma; lia).
  rewrite u_lower_char by exact Hc. f_equal. apply IH. exact Hs.
Qed.

Lemma u_lower s :
  ascii7 s = true -> Unicode.lower (Unicode.of_str s) = Some (Unicode.of_str (lower s)).
Proof.
  intros Hs. unfold Unicode.lower.
  replace (forallb Unicode.in_alphabet (Unicode.of_str s)) with true.
  - rewrite u_lower_aux by exact Hs. reflexivity.
  - symmetry. apply forallb_forall. intros n Hn. unfold Unicode.of_str in Hn.
    apply in_map_iff in Hn as [c [<- Hc]]. unfold ascii7 in Hs.
    rewrite forallb_forall in Hs. specialize (Hs c Hc).
    unfold Unicode.in_alphabet. rewrite Hs. reflexivity.
Qed.

Lemma u_mem_qmark s : Unicode.mem_char Unicode.qmark (Unicode.of_str s) = mem_char "?"%char s.
Proof.
  induction s as [|c s IH]; [reflexivity|]. unfold Unicode.mem_char, mem_char in *.
  change (Unicode.of_str (c :: s)) with (nat_of_ascii c :: Unicode.of_str s).
  cbn [existsb]. rewrite IH, ascii_eqb_nat. reflexivity.
Qed.

Lemma u_reference_phrases (cleaned : str) (n : nat) :
  existsb (fun phrase => Unicode.contains (Unicode.of_str cleaned) phrase && (n <? 10))
          Unicode.reference_phrases =
  existsb (fun phrase => contains cleaned phrase && (n <? 10)) reference_phrases.
Proof.
  unfold Unicode.reference_phrases. induction reference_phrases as [|ph l IH]; [reflexivity|].
  simpl. rewrite u_contains, IH. reflexivity.
Qed.

(** On ASCII strings the code-point reading of [is_informative_content]
    is the ASCII one. *)
Lemma is_informative_content_ascii text query :
  ascii7 text = true -> ascii7 query = true ->
  Unicode.is_informative_content (Unicode.of_str text) (Unicode.of_str query) =
  Some (is_informative_content text query).
Proof.
  intros Ht Hq. unfold Unicode.is_informative_content, is_informative_content.
  rewrite (u_lower text Ht), (u_lower query Hq). cbv zeta.
  rewrite !(u_rstrip_char "?"%char), !u_replace_empty, !u_strip, !u_split, !length_map,
    u_startswith, u_mem_qmark, u_reference_phrases.
  reflexivity.
Qed.

(** C6 fails beyond ASCII.  The text [U+0391 U+03A3 U+0391 " a b c d
    e?"] starts with the query [U+0391 U+03A3] and contains a [?], but
    [str.lower] gives the sigma of the query, word-final, the final form
    U+03C2 and the sigma of the text the form U+03C3: nothing is removed,
    six tokens remain, the lower-cased text does not start with the
    lower-cased query, and the filter accepts the text. *)
Lemma is_informative_final_sigma_cex :
  Unicode.startswith Unicode.sigma_text Unicode.sigma_query = true /\
  Unicode.mem_char Unicode.qmark Unicode.sigma_text = true /\
  Unicode.lower Unicode.sigma_query = Some [945; 962] /\
  Unicode.lower Unicode.sigma_text = Some ([945; 963; 945] ++ Unicode.of_str (S_ " a b c d e?")) /\
  Unicode.is_informative_content Unicode.sigma_text Unicode.sigma_query = Some true.
Proof. repeat split; vm_compute; reflexivity. Qed.

(** C6 (amended).  For an ASCII text and an ASCII query, read as code
    points, a text that starts with the query and contains a [?] is
    rejected. *)
Theorem is_informative_restated_question_ascii (text query : str) :
  ascii7 text = true -> ascii7 query = true ->
  startswith text query = true -> mem_char "?"%char text = true ->
  Unicode.is_informative_content (Unicode.of_str text) (Unicode.of_str query) = Some false.
Proof.
  intros Ht Hq Hs Hm. rewrite (is_informative_content_ascii _ _ Ht Hq).
  rewrite (is_informative_restated_question _ _ Hs Hm). reflexivity.
Qed.

Lemma is_informative_restated_question_ascii_witness :
  Unicode.is_informative_content (Unicode.of_str (S_ "is it raining outside today?"))
    (Unicode.of_str (S_ "is it raining")) = Some false.
Proof.
  apply is_informative_restated_question_ascii; vm_compute; reflexivity.
Defined.
